(** * Phonetics Common Feature Finder (commonFeatureFinder.c)

    A shallow embedding of the eight reduction routines and of [main], and
    the properties of the specification that are stated about them.

    Conventions of the embedding.
    - A C [int] is a [Z]; the phoneme codes are compared with [==] only.
      [int] is taken 32 bits wide: a number that [scanf] reads outside this
      range ends the run, the conversion being undefined.
    - A [char[20]] buffer holding a C string is a [string]; the sentinel
      empty string of the source is [EmptyString].  [strcmp(a,b) == 0] is
      [String.eqb a b].
    - A call [f(intArray, num)] reads the cells [intArray[0..num-1]]; a
      reduction routine is modelled on that sequence of cells, a [list Z].
    - A routine either reaches its final [printf], and we return the label
      passed to it, or leaves through one of its [return ;] statements
      without printing, and we return [None]. *)

From Stdlib Require Import ZArith List String Bool Lia Permutation.
From Stdlib Require Import DecimalString.
Import ListNotations.

Local Open Scope string_scope.
Local Open Scope list_scope.
Local Open Scope Z_scope.

(** ** Classification chains

    The [if / else if] chain at the head of each loop body.  [None] is the
    final [else { return ; }] under the comment "Out of range". *)

Module Classify.

(** conPlaceArticulation, the chain on [intArray[i]]: (place, subPlace). *)
Definition place (c : Z) : option (string * string) :=
  if (c =? 1) || (c =? 2) || (c =? 3) then Some ("Labial", "Bilabial")
  else if (c =? 4) || (c =? 5) then Some ("Labial", "Labiodental")
  else if (c =? 6) || (c =? 7) then Some ("Dental", "")
  else if (c =? 8) || (c =? 9) || (c =? 10) || (c =? 11) ||
          (c =? 12) || (c =? 13) || (c =? 14) then Some ("Alveolar", "")
  else if (c =? 15) || (c =? 16) || (c =? 17) || (c =? 18)
       then Some ("Alveopalatal", "")
  else if (c =? 19) then Some ("Palatal", "")
  else if (c =? 20) || (c =? 21) || (c =? 22) then Some ("Velar", "")
  else if (c =? 23) then Some ("Labial", "Velar")
  else if (c =? 24) || (c =? 25) then Some ("Glottal", "")
  else None.

(** conMannerArticulation: (manner, subManner). *)
Definition manner (c : Z) : option (string * string) :=
  if (c =? 1) || (c =? 2) || (c =? 8) || (c =? 9) ||
     (c =? 20) || (c =? 21) || (c =? 24) then Some ("Stop", "")
  else if (c =? 3) || (c =? 10) || (c =? 22) then Some ("Nasal", "Stop")
  else if (c =? 4) || (c =? 5) || (c =? 6) || (c =? 7) || (c =? 11) ||
          (c =? 12) || (c =? 15) || (c =? 16) || (c =? 25)
       then Some ("Fricative", "")
  else if (c =? 17) || (c =? 18) then Some ("Affricate", "")
  else if (c =? 13) || (c =? 14) then Some ("Liquid", "")
  else if (c =? 19) || (c =? 23) then Some ("Glide", "")
  else None.

(** conVoicing: voice. *)
Definition voice (c : Z) : option string :=
  if (c =? 1) || (c =? 4) || (c =? 6) || (c =? 8) || (c =? 11) ||
     (c =? 15) || (c =? 17) || (c =? 20) || (c =? 24) || (c =? 25)
  then Some "Voiceless"
  else if (c =? 2) || (c =? 3) || (c =? 5) || (c =? 7) || (c =? 9) ||
          (c =? 10) || (c =? 12) || (c =? 13) || (c =? 14) || (c =? 16) ||
          (c =? 18) || (c =? 19) || (c =? 21) || (c =? 22) || (c =? 23)
  then Some "Voiced"
  else None.

(** vowHeight: height. *)
Definition height (c : Z) : option string :=
  if (c =? 1) || (c =? 2) || (c =? 3) || (c =? 4) then Some "High"
  else if (c =? 5) || (c =? 6) || (c =? 7) || (c =? 8) ||
          (c =? 9) || (c =? 10) || (c =? 11) then Some "Mid"
  else if (c =? 12) || (c =? 13) || (c =? 14) || (c =? 15) then Some "Low"
  else None.

(** vowBackness: backness. *)
Definition backness (c : Z) : option string :=
  if (c =? 1) || (c =? 2) || (c =? 5) || (c =? 6) || (c =? 12)
  then Some "Front"
  else if (c =? 7) || (c =? 8) || (c =? 13) || (c =? 14)
  then Some "Central"
  else if (c =? 3) || (c =? 4) || (c =? 9) || (c =? 10) ||
          (c =? 11) || (c =? 15)
  then Some "Back"
  else None.

(** vowTenseness: tenseness. *)
Definition tenseness (c : Z) : option string :=
  if (c =? 1) || (c =? 3) || (c =? 5) || (c =? 9) || (c =? 10) ||
     (c =? 13) || (c =? 14) || (c =? 15)
  then Some "Tensed"
  else if (c =? 2) || (c =? 4) || (c =? 6) || (c =? 7) ||
          (c =? 8) || (c =? 11) || (c =? 12)
  then Some "Laxed"
  else None.

(** vowRoundedness: roundedness. *)
Definition roundedness (c : Z) : option string :=
  if (c =? 3) || (c =? 4) || (c =? 9) || (c =? 10) || (c =? 11)
  then Some "Rounded"
  else if (c =? 1) || (c =? 2) || (c =? 5) || (c =? 6) || (c =? 7) ||
          (c =? 8) || (c =? 12) || (c =? 13) || (c =? 14) || (c =? 15)
  then Some "Unrounded"
  else None.

(** vowDiphthong: (diphthong, subDiphthong). *)
Definition diphthong (c : Z) : option (string * string) :=
  if (c =? 1) || (c =? 2) || (c =? 3) || (c =? 4) || (c =? 6) ||
     (c =? 7) || (c =? 8) || (c =? 11) || (c =? 12) || (c =? 15)
  then Some ("Simple Vowel", "")
  else if (c =? 10) || (c =? 13) || (c =? 14)
  then Some ("Diphthong", "Major Diphthong")
  else if (c =? 5) || (c =? 9)
  then Some ("Diphthong", "Minor Diphthong")
  else None.

End Classify.

(** ** The comparison blocks and the loops

    The block after "Compare ..." is the same text in conPlaceArticulation,
    conMannerArticulation and vowDiphthong up to the names of the four
    buffers, and the same text in the five other routines up to the names
    of the two buffers. *)

Definition strcmp0 (a b : string) : bool := String.eqb a b.

(** The [else] branch of [if (i == 0)] in the routines with a sub-feature.
    Arguments: the buffers [place], [subPlace], [previousPlace],
    [previousSubPlace]; result: the new ([previousPlace],
    [previousSubPlace]), or [None] for [return ;]. *)
Definition compareSub (place subPlace previousPlace previousSubPlace : string)
  : option (string * string) :=
  if strcmp0 place previousPlace then Some (place, "")
  else if negb (strcmp0 previousSubPlace "") && negb (strcmp0 subPlace "") then
    if strcmp0 subPlace previousSubPlace then Some (subPlace, "") else None
  else if negb (strcmp0 previousSubPlace "") then
    if strcmp0 place previousSubPlace then Some (place, "") else None
  else if negb (strcmp0 subPlace "") then
    if strcmp0 subPlace previousPlace then Some (subPlace, "") else None
  else None.

(** The [else] branch of [if (i == 0)] in the routines without sub-feature. *)
Definition comparePlain (voice previousVoice : string) : option string :=
  if strcmp0 voice previousVoice then Some voice else None.

(** [while (i < num) { ... i++; }] followed by the final [printf], for a
    routine with a sub-feature.  [codes] are the cells
    [intArray[i..num-1]] still to be read. *)
Fixpoint whileSub (classify : Z -> option (string * string))
         (i : nat) (codes : list Z)
         (previousPlace previousSubPlace : string) : option string :=
  match codes with
  | [] => Some previousPlace
  | c :: codes' =>
      match classify c with
      | None => None
      | Some (place, subPlace) =>
          match i with
          | O => whileSub classify (S i) codes' place subPlace
          | S _ =>
              match compareSub place subPlace
                               previousPlace previousSubPlace with
              | Some (p, s) => whileSub classify (S i) codes' p s
              | None => None
              end
          end
      end
  end.

(** The same for a routine without sub-feature. *)
Fixpoint whilePlain (classify : Z -> option string)
         (i : nat) (codes : list Z) (previousVoice : string)
  : option string :=
  match codes with
  | [] => Some previousVoice
  | c :: codes' =>
      match classify c with
      | None => None
      | Some voice =>
          match i with
          | O => whilePlain classify (S i) codes' voice
          | S _ =>
              match comparePlain voice previousVoice with
              | Some p => whilePlain classify (S i) codes' p
              | None => None
              end
          end
      end
  end.

(** ** The eight routines

    Each starts with its [previous...] buffers initialised to [""] and
    [i = 0]. *)

Definition conPlaceArticulation (codes : list Z) : option string :=
  whileSub Classify.place 0 codes "" "".

Definition conMannerArticulation (codes : list Z) : option string :=
  whileSub Classify.manner 0 codes "" "".

Definition conVoicing (codes : list Z) : option string :=
  whilePlain Classify.voice 0 codes "".

Definition vowHeight (codes : list Z) : option string :=
  whilePlain Classify.height 0 codes "".

Definition vowBackness (codes : list Z) : option string :=
  whilePlain Classify.backness 0 codes "".

Definition vowTenseness (codes : list Z) : option string :=
  whilePlain Classify.tenseness 0 codes "".

Definition vowRoundedness (codes : list Z) : option string :=
  whilePlain Classify.roundedness 0 codes "".

Definition vowDiphthong (codes : list Z) : option string :=
  whileSub Classify.diphthong 0 codes "" "".

(** ** Effects: standard output and calls

    A run is observed through the lines written by [printf] (without their
    final newline) and, as ghost information, through the calls of the
    reduction routines made by [main]. *)

Inductive routine : Type :=
| ConPlaceArticulation | ConMannerArticulation | ConVoicing
| VowHeight | VowBackness | VowTenseness | VowRoundedness | VowDiphthong.

(** The body of a routine: the label it prints, if it prints. *)
Definition body (r : routine) : list Z -> option string :=
  match r with
  | ConPlaceArticulation => conPlaceArticulation
  | ConMannerArticulation => conMannerArticulation
  | ConVoicing => conVoicing
  | VowHeight => vowHeight
  | VowBackness => vowBackness
  | VowTenseness => vowTenseness
  | VowRoundedness => vowRoundedness
  | VowDiphthong => vowDiphthong
  end.

(** The text before [%s] in the final [printf] of a routine. *)
Definition format (r : routine) : string :=
  match r with
  | ConPlaceArticulation => "The common place of articulation is: "
  | ConMannerArticulation => "The common manner of articulation is: "
  | ConVoicing => "The common voicing is: "
  | VowHeight => "The common height of the tongue is: "
  | VowBackness => "The common backness of the tongue is: "
  | VowTenseness => "The common tenseness of the vocal tract is: "
  | VowRoundedness => "The common roundedness of the lips is: "
  | VowDiphthong => "The common simple/complex vowel is: "
  end.

Inductive event : Type :=
| Printf (line : string)
| Call (r : routine) (codes : list Z).

Definition trace := list event.

(** What one routine writes. *)
Definition prints (r : routine) (codes : list Z) : trace :=
  match body r codes with
  | Some label => [Printf (format r ++ label)%string]
  | None => []
  end.

(** A call statement [r(intArray, num);] of [main]. *)
Definition call (r : routine) (codes : list Z) (t : trace) : trace :=
  t ++ Call r codes :: prints r codes.

(** ** main *)

(** [int intArray[7];] *)
Definition intArray_size : nat := 7.

(** The range of [int], taken 32 bits wide. *)
Definition INT_MIN : Z := -2147483648.

Definition INT_MAX : Z := 2147483647.

Definition is_int (z : Z) : bool := (INT_MIN <=? z) && (z <=? INT_MAX).

(** A value folded into the range of [int]. *)
Definition as_int (z : Z) : Z := (z - INT_MIN) mod 4294967296 + INT_MIN.

(** [int num; int intArray[7]; int consonantVowel;] are declared without
    initialiser: what they hold before anything is stored in them is
    indeterminate.  These are the values they are found to hold; any three
    will do, each is folded into the range of [int] where it is read. *)
Record indeterminate : Type :=
  { unset_num : Z;
    unset_intArray : nat -> Z;
    unset_consonantVowel : Z }.

(** The cells of [intArray] when main starts. *)
Definition initial (junk : indeterminate) : list Z :=
  map (fun i => as_int (unset_intArray junk i)) (seq 0 intArray_size).

(** A run that leaves defined behaviour. *)
Inductive fault : Type :=
| StoreOutOfBounds (stores : list (Z * Z))
    (* the stores [intArray[i] = v] that the input loop makes outside the
       array, each as (i, v), in the order of the loop *)
| LoadOutOfBounds (i : Z)
    (* a routine reads [intArray[i]] outside the array *)
| Unrepresentable (v : Z).
    (* [scanf] reads a number that no [int] holds *)

Inductive result (A : Type) : Type :=
| Ok (a : A) (t : trace)
| Fault (f : fault) (t : trace).
Arguments Ok {A} a t.
Arguments Fault {A} f t.

Fixpoint update (l : list Z) (n : nat) (v : Z) : list Z :=
  match l, n with
  | [], _ => []
  | _ :: l', O => v :: l'
  | x :: l', S n' => x :: update l' n' v
  end.

(** The assignment to [intArray[i]] made by [scanf("%d", &intArray[i])]. *)
Definition store (intArray : list Z) (i : Z) (v : Z) : option (list Z) :=
  if (0 <=? i) && (i <? Z.of_nat (List.length intArray))
  then Some (update intArray (Z.to_nat i) v)
  else None.

Definition decimal (i : Z) : string := NilZero.string_of_int (Z.to_int i).

(** Standard input is taken of this form: decimal numbers separated by white
    space, then its end, or a text that [scanf("%d", ...)] does not get past
    (a letter, say).  It is given as the list of these numbers: once the
    list is empty every [scanf("%d", ...)] fails and assigns nothing.  main
    never tests the result of [scanf]. *)
Inductive scanned : Type :=
| Assigned (v : Z) (stdin : list Z)
| Unassigned
| Overflow (v : Z).

Definition scanf_d (stdin : list Z) : scanned :=
  match stdin with
  | [] => Unassigned
  | v :: stdin' => if is_int v then Assigned v stdin' else Overflow v
  end.

(** [for (int i = 0; i < num; i++) { printf(...); scanf("%d", &intArray[i]); }]
    with [n] the number of iterations still to run, that is [num - i].
    A failed [scanf] leaves the cell as it is and the loop goes on; a store
    outside the array is recorded in [outside] and the loop goes on. *)
Fixpoint fill (n : nat) (i : Z) (intArray stdin : list Z)
         (outside : list (Z * Z)) (t : trace)
  : result (list Z * list Z * list (Z * Z)) :=
  match n with
  | O => Ok (intArray, stdin, outside) t
  | S n' =>
      let t := t ++ [Printf ("Enter intArray[" ++ decimal i ++ "].")%string] in
      match scanf_d stdin with
      | Unassigned => fill n' (i + 1) intArray stdin outside t
      | Overflow v => Fault (Unrepresentable v) t
      | Assigned v stdin' =>
          match store intArray i v with
          | Some intArray' => fill n' (i + 1) intArray' stdin' outside t
          | None => fill n' (i + 1) intArray stdin' (outside ++ [(i, v)]) t
          end
      end
  end.

(** Lines 606-613, once [num] has its value: the codes and the selector.
    A store outside the array leaves the run without defined behaviour; the
    loop and the question that follow it are run as they are written, and
    the run is ended after them, with all the stores made outside.  A
    number outside the range of [int] ends the run where it is read. *)
Definition ask_codes (junk : indeterminate) (num : Z) (stdin : list Z)
           (t : trace) : result (Z * list Z * Z) :=
  match fill (Z.to_nat num) 0 (initial junk) stdin [] t with
  | Fault f t => Fault f t
  | Ok (intArray, stdin, outside) t =>
      let t :=
        t ++ [Printf "Vowel or consonant? Enter 0 if consonant, 1 if vowel."] in
      match scanf_d stdin with
      | Overflow v => Fault (Unrepresentable v) t
      | scanned_selector =>
          let consonantVowel :=
            match scanned_selector with
            | Assigned v _ => v
            | _ => as_int (unset_consonantVowel junk)
            end in
          match outside with
          | [] => Ok (num, intArray, consonantVowel) t
          | _ :: _ => Fault (StoreOutOfBounds outside) t
          end
      end
  end.

(** Lines 603-613: the three questions. *)
Definition ask (junk : indeterminate) (stdin : list Z)
  : result (Z * list Z * Z) :=
  let t := [Printf "How many consonants/vowels?"] in
  match scanf_d stdin with
  | Overflow v => Fault (Unrepresentable v) t
  | Unassigned => ask_codes junk (as_int (unset_num junk)) stdin t
  | Assigned num stdin' => ask_codes junk num stdin' t
  end.

(** Lines 615-637: the calls.  The result is the value returned by [main]. *)
Definition dispatch (consonantVowel : Z) (codes : list Z) (t : trace)
  : Z * trace :=
  if consonantVowel =? 0 then
    let t := call ConPlaceArticulation codes t in
    let t := call ConMannerArticulation codes t in
    let t := call ConVoicing codes t in
    (0, t ++ [Printf "========END========"])
  else if consonantVowel =? 1 then
    let t := call VowHeight codes t in
    let t := call VowBackness codes t in
    let t := call VowTenseness codes t in
    let t := call VowRoundedness codes t in
    let t := call VowDiphthong codes t in
    (0, t ++ [Printf "========END========"])
  else
    (0, t ++ [Printf "Invalid Input"]).

(** The cells [intArray[0..num-1]] read by a routine called with
    [(intArray, num)]. *)
Definition cells (intArray : list Z) (num : Z) : list Z :=
  firstn (Z.to_nat num) intArray.

(** A call [r(intArray, num);] with [num] above the size of the array.  The
    routine reads the cells of the array in order: if it returns at one of
    them it has printed nothing, and main goes on with [next]; if not, it
    reads [intArray[7]], outside the array. *)
Definition call_past (r : routine) (intArray : list Z)
           (next : trace -> result Z) (t : trace) : result Z :=
  let t := t ++ [Call r intArray] in
  match body r intArray with
  | None => next t
  | Some _ => Fault (LoadOutOfBounds (Z.of_nat (List.length intArray))) t
  end.

(** Lines 615-637 with [num] above the size of the array. *)
Definition dispatch_past (consonantVowel : Z) (intArray : list Z) (t : trace)
  : result Z :=
  let finish := fun t => Ok 0 (t ++ [Printf "========END========"]) in
  if consonantVowel =? 0 then
    call_past ConPlaceArticulation intArray
      (call_past ConMannerArticulation intArray
         (call_past ConVoicing intArray finish)) t
  else if consonantVowel =? 1 then
    call_past VowHeight intArray
      (call_past VowBackness intArray
         (call_past VowTenseness intArray
            (call_past VowRoundedness intArray
               (call_past VowDiphthong intArray finish)))) t
  else
    Ok 0 (t ++ [Printf "Invalid Input"]).

Definition main (junk : indeterminate) (stdin : list Z) : result Z :=
  match ask junk stdin with
  | Fault f t => Fault f t
  | Ok (num, intArray, consonantVowel) t =>
      if num <=? Z.of_nat intArray_size then
        let (status, t) :=
          dispatch consonantVowel (cells intArray num) t in
        Ok status t
      else dispatch_past consonantVowel intArray t
  end.

(** Projections of a trace. *)
Definition stdout (t : trace) : list string :=
  flat_map (fun e => match e with Printf l => [l] | Call _ _ => [] end) t.

Definition calls (t : trace) : list (routine * list Z) :=
  flat_map (fun e => match e with Printf _ => [] | Call r cs => [(r, cs)] end) t.

(** ** The code-to-feature mapping of each routine

    The pair of labels that the classification chain of a routine copies
    into its buffers; a routine without sub-feature has no second buffer,
    which is the same as a second buffer that always holds [""] (lemma
    [whilePlain_whileSub] below). *)

Definition plain (classify : Z -> option string) (c : Z)
  : option (string * string) :=
  match classify c with
  | Some v => Some (v, "")
  | None => None
  end.

Definition feature (r : routine) : Z -> option (string * string) :=
  match r with
  | ConPlaceArticulation => Classify.place
  | ConMannerArticulation => Classify.manner
  | ConVoicing => plain Classify.voice
  | VowHeight => plain Classify.height
  | VowBackness => plain Classify.backness
  | VowTenseness => plain Classify.tenseness
  | VowRoundedness => plain Classify.roundedness
  | VowDiphthong => Classify.diphthong
  end.

(** The consonant routines are called under [consonantVowel == 0], the
    vowel routines under [consonantVowel == 1]. *)
Inductive PhonemeClass : Type := Consonant | Vowel.

Definition class_of (r : routine) : PhonemeClass :=
  match r with
  | ConPlaceArticulation | ConMannerArticulation | ConVoicing => Consonant
  | _ => Vowel
  end.

(** Number of codes of the chart of a class: 25 consonants, 15 vowels. *)
Definition chart_size (k : PhonemeClass) : nat :=
  match k with Consonant => 25 | Vowel => 15 end.

Definition in_chart (k : PhonemeClass) (c : Z) : Prop :=
  1 <= c <= Z.of_nat (chart_size k).

Definition selector (k : PhonemeClass) : Z :=
  match k with Consonant => 0 | Vowel => 1 end.

(** ** The specification's reducer (spec sections 3, 4.1 and 4.2)

    These definitions follow the words of the specification, not the
    source; they are what the source is compared with. *)

Module Spec.

(** "FeatureValue: a pair (primary: string label, secondary: optional
    string label)". *)
Record FeatureValue : Type :=
  { primary : string; secondary : option string }.

(** "FeatureTable: ... a total mapping from PhonemeCode to FeatureValue
    (codes outside the dimension's valid set are absent/unmapped)". *)
Definition FeatureTable := Z -> option FeatureValue.

Inductive FeatureDimension : Type :=
| PlaceOfArticulation | MannerOfArticulation | Voicing
| Height | Backness | Tenseness | Roundedness | DiphthongStatus.

(** A table written as in section 4.1: rows "primary / secondary: codes". *)
Definition row := (string * option string * list Z)%type.

Fixpoint lookup (rows : list row) (c : Z) : option FeatureValue :=
  match rows with
  | [] => None
  | (p, s, cs) :: rows' =>
      if existsb (Z.eqb c) cs
      then Some {| primary := p; secondary := s |}
      else lookup rows' c
  end.

Definition rows_of (d : FeatureDimension) : list row :=
  match d with
  | PlaceOfArticulation =>
      [ ("Labial", Some "Bilabial", [1; 2; 3]);
        ("Labial", Some "Labiodental", [4; 5]);
        ("Dental", None, [6; 7]);
        ("Alveolar", None, [8; 9; 10; 11; 12; 13; 14]);
        ("Alveopalatal", None, [15; 16; 17; 18]);
        ("Palatal", None, [19]);
        ("Velar", None, [20; 21; 22]);
        ("Labial", Some "Velar", [23]);
        ("Glottal", None, [24; 25]) ]
  | MannerOfArticulation =>
      [ ("Stop", None, [1; 2; 8; 9; 20; 21; 24]);
        ("Nasal", Some "Stop", [3; 10; 22]);
        ("Fricative", None, [4; 5; 6; 7; 11; 12; 15; 16; 25]);
        ("Affricate", None, [17; 18]);
        ("Liquid", None, [13; 14]);
        ("Glide", None, [19; 23]) ]
  | Voicing =>
      [ ("Voiceless", None, [1; 4; 6; 8; 11; 15; 17; 20; 24; 25]);
        ("Voiced", None,
         [2; 3; 5; 7; 9; 10; 12; 13; 14; 16; 18; 19; 21; 22; 23]) ]
  | Height =>
      [ ("High", None, [1; 2; 3; 4]);
        ("Mid", None, [5; 6; 7; 8; 9; 10; 11]);
        ("Low", None, [12; 13; 14; 15]) ]
  | Backness =>
      [ ("Front", None, [1; 2; 5; 6; 12]);
        ("Central", None, [7; 8; 13; 14]);
        ("Back", None, [3; 4; 9; 10; 11; 15]) ]
  | Tenseness =>
      [ ("Tensed", None, [1; 3; 5; 9; 10; 13; 14; 15]);
        ("Laxed", None, [2; 4; 6; 7; 8; 11; 12]) ]
  | Roundedness =>
      [ ("Rounded", None, [3; 4; 9; 10; 11]);
        ("Unrounded", None, [1; 2; 5; 6; 7; 8; 12; 13; 14; 15]) ]
  | DiphthongStatus =>
      [ ("SimpleVowel", None, [1; 2; 3; 4; 6; 7; 8; 11; 12; 15]);
        ("Diphthong", Some "MajorDiphthong", [10; 13; 14]);
        ("Diphthong", Some "MinorDiphthong", [5; 9]) ]
  end.

(** Section 4.1. *)
Definition table (d : FeatureDimension) : FeatureTable :=
  lookup (rows_of d).

(** The results of section 7, and the empty sequence of section 4.3,
    to be treated "as a no-op or a defined invalid-input error". *)
Inductive Outcome : Type :=
| Resolved (label : string)
| OutOfRangeCode
| NoCommonFeature
| EmptyInput.

(** Step 1: "Map each code to its FeatureValue via the table; a code with
    no entry aborts the whole reduction". *)
Fixpoint mapCodes (T : FeatureTable) (codes : list Z)
  : option (list FeatureValue) :=
  match codes with
  | [] => Some []
  | c :: codes' =>
      match T c, mapCodes T codes' with
      | Some v, Some vs => Some (v :: vs)
      | _, _ => None
      end
  end.

(** Step 3.  Each rule gives the primary label of the new current value
    when it matches. *)
Definition rule_a (current next : FeatureValue) : option string :=
  if String.eqb (primary next) (primary current)
  then Some (primary current) else None.

Definition rule_b (current next : FeatureValue) : option string :=
  match secondary current, secondary next with
  | Some Sc, Some Si => if String.eqb Sc Si then Some Sc else None
  | _, _ => None
  end.

Definition rule_c (current next : FeatureValue) : option string :=
  match secondary current with
  | Some Sc => if String.eqb Sc (primary next)
               then Some (primary next) else None
  | None => None
  end.

Definition rule_d (current next : FeatureValue) : option string :=
  match secondary next with
  | Some Si => if String.eqb Si (primary current) then Some Si else None
  | None => None
  end.

(** "using this precedence, first match wins"; rule e is [None]. *)
Fixpoint first_match (rules : list (FeatureValue -> FeatureValue -> option string))
         (current next : FeatureValue) : option string :=
  match rules with
  | [] => None
  | rule :: rules' =>
      match rule current next with
      | Some l => Some l
      | None => first_match rules' current next
      end
  end.

Definition combine (current next : FeatureValue) : option FeatureValue :=
  match first_match [rule_a; rule_b; rule_c; rule_d] current next with
  | Some l => Some {| primary := l; secondary := None |}
  | None => None
  end.

(** Steps 3 and 4 over the values that follow the first. *)
Fixpoint fold (current : FeatureValue) (rest : list FeatureValue)
  : Outcome :=
  match rest with
  | [] => Resolved (primary current)
  | next :: rest' =>
      match combine current next with
      | Some current' => fold current' rest'
      | None => NoCommonFeature
      end
  end.

(** Steps 1 to 4. *)
Definition reduce (T : FeatureTable) (codes : list Z) : Outcome :=
  match mapCodes T codes with
  | None => OutOfRangeCode
  | Some [] => EmptyInput
  | Some (first :: rest) => fold first rest
  end.

(** What a caller sees of an outcome in the source: a label, or nothing. *)
Definition label (o : Outcome) : option string :=
  match o with
  | Resolved l => Some l
  | _ => None
  end.

End Spec.

Definition dimension_of (r : routine) : Spec.FeatureDimension :=
  match r with
  | ConPlaceArticulation => Spec.PlaceOfArticulation
  | ConMannerArticulation => Spec.MannerOfArticulation
  | ConVoicing => Spec.Voicing
  | VowHeight => Spec.Height
  | VowBackness => Spec.Backness
  | VowTenseness => Spec.Tenseness
  | VowRoundedness => Spec.Roundedness
  | VowDiphthong => Spec.DiphthongStatus
  end.

(** The sentinel [""] of the source read as an absent secondary label. *)
Definition optional (s : string) : option string :=
  if strcmp0 s "" then None else Some s.

Definition toFeatureValue (v : string * string) : Spec.FeatureValue :=
  {| Spec.primary := fst v; Spec.secondary := optional (snd v) |}.

(** The feature table of a routine, as the source has it. *)
Definition featureTable (r : routine) : Spec.FeatureTable :=
  fun c =>
    match feature r c with
    | Some v => Some (toFeatureValue v)
    | None => None
    end.

(** The spelling of the labels of section 4.1 in the source: the three
    labels of the diphthong status are written in two words. *)
Definition spelling (l : string) : string :=
  if String.eqb l "SimpleVowel" then "Simple Vowel"
  else if String.eqb l "MajorDiphthong" then "Major Diphthong"
  else if String.eqb l "MinorDiphthong" then "Minor Diphthong"
  else l.

Definition respell (v : Spec.FeatureValue) : Spec.FeatureValue :=
  {| Spec.primary := spelling (Spec.primary v);
     Spec.secondary := option_map spelling (Spec.secondary v) |}.

(** ** Notions used in the statements *)

(** All the codes have the primary label [x]. *)
Definition uniform (classify : Z -> option (string * string))
           (x : string) (codes : list Z) : Prop :=
  forall c, In c codes -> exists s, classify c = Some (x, s).

(** The entries of the mapping of a routine, code by code. *)
Definition values (r : routine) : list (string * string) :=
  flat_map (fun k => match feature r (Z.of_nat k) with
                     | Some v => [v]
                     | None => []
                     end)
           (seq 1 (chart_size (class_of r))).

(** Test: two entries that both have a sub-feature have the same primary
    label. *)
Definition sub_same_primary (v v' : string * string) : bool :=
  strcmp0 (snd v) "" || strcmp0 (snd v') "" || strcmp0 (fst v) (fst v').

(** [x] is a label of the entry [v]: its primary label, or its
    sub-feature when it has one. *)
Definition covers (x : string) (v : string * string) : Prop :=
  x = fst v \/ (snd v <> "" /\ x = snd v).

(** Test: two entries are not (a, b) and (b, a) with a and b different. *)
Definition not_swapped (v v' : string * string) : bool :=
  negb (strcmp0 (fst v) (snd v') && strcmp0 (snd v) (fst v') &&
        negb (strcmp0 (fst v) (snd v))).

(** The six dimensions in which no sub-feature label is also a primary
    label: the routines other than those of place and manner. *)
Definition flat (r : routine) : bool :=
  match r with
  | ConPlaceArticulation | ConMannerArticulation => false
  | _ => true
  end.

(** The values the buffers can hold after an iteration. *)
Definition states (r : routine) : list (string * string) :=
  values r ++ map (fun v => (fst v, "")) (values r).

(** Test: from the buffers [st] the comparison block accepts the entry [v]
    only when their primary labels are equal. *)
Definition same_primary_only (st v : string * string) : bool :=
  match compareSub (fst v) (snd v) (fst st) (snd st) with
  | Some _ => strcmp0 (fst v) (fst st)
  | None => true
  end.

(** Test: the sub-feature of an entry is not its primary label again. *)
Definition sub_differs (v : string * string) : bool :=
  negb (strcmp0 (fst v) (snd v)).

(** The routines called for a class, in the order of the calls. *)
Definition routines_of (k : PhonemeClass) : list routine :=
  match k with
  | Consonant => [ConPlaceArticulation; ConMannerArticulation; ConVoicing]
  | Vowel => [VowHeight; VowBackness; VowTenseness; VowRoundedness;
              VowDiphthong]
  end.

(** "Every pair of them, reduced alone, resolves to a common feature". *)
Definition mutually_agree (r : routine) (l : list Z) : Prop :=
  forall a b, In a l -> In b l -> exists x, body r [a; b] = Some x.

(** "Reducing the codes in any order yields the same final resolved
    label; in particular no ordering makes the reduction fail while another
    resolves". *)
Definition order_independent (r : routine) : Prop :=
  forall l l', mutually_agree r l -> Permutation l l' ->
               body r l = body r l'.

(** "Every write into the input array is within the bounds of the
    7-element array", whatever is typed. *)
Definition writes_within_bounds : Prop :=
  forall (junk : indeterminate) (stdin : list Z)
         (stores : list (Z * Z)) (t : trace),
    ask junk stdin <> Fault (StoreOutOfBounds stores) t.

(** Every number of a list is in the range of [int]. *)
Definition ints (stdin : list Z) : Prop :=
  Forall (fun z => is_int z = true) stdin.

(** The numbers that main reads when the count [num] is followed by the
    numbers [rest]: the count, one number for each iteration of the loop,
    and the selector. *)
Definition read (num : Z) (rest : list Z) : list Z :=
  num :: firstn (S (Z.to_nat num)) rest.

(** The stores outside the array for a count [num] followed by the numbers
    [rest]: of the numbers the loop reads, the eighth and later ones, at
    the indices 7, 8, ... *)
Definition outside_stores (num : Z) (rest : list Z) : list (Z * Z) :=
  combine (map Z.of_nat (seq intArray_size (Z.to_nat num - intArray_size)))
          (skipn intArray_size (firstn (Z.to_nat num) rest)).

(** Some indeterminate values, for the examples. *)
Definition zeros : indeterminate :=
  {| unset_num := 0;
     unset_intArray := fun _ => 0;
     unset_consonantVowel := 0 |}.

(** "Every pair of them, reduced alone, resolves", here to one and the same
    label [x]: whichever two codes [a] and [b] are taken out of the
    multiset, [a] then [b] print [x]. *)
Definition pairs_resolve_to (r : routine) (x : string) (l : list Z) : Prop :=
  forall a b rest, Permutation l (a :: b :: rest) -> body r [a; b] = Some x.

(** ** Notions used in the further properties *)

(** Test: the entry [v] has the label [y], as its primary label or as its
    sub-feature. *)
Definition carries (y : string) (v : string * string) : bool :=
  strcmp0 (fst v) y || (negb (strcmp0 (snd v) "") && strcmp0 (snd v) y).

(** Test: the code [c] has an entry, and the entry has the label [y]. *)
Definition accepts (classify : Z -> option (string * string))
           (y : string) (c : Z) : bool :=
  match classify c with
  | Some v => carries y v
  | None => false
  end.

(** Test: from the buffers [st] and the entry [v] the comparison block
    stores a primary label of the chart of [r], if it stores anything. *)
Definition primary_kept (r : routine) (st v : string * string) : bool :=
  match compareSub (fst v) (snd v) (fst st) (snd st) with
  | Some st' => existsb (strcmp0 (fst st')) (map fst (values r))
  | None => true
  end.

(** The labels that are sub-features only. *)
Definition sub_only : list string :=
  ["Bilabial"; "Labiodental"; "Major Diphthong"; "Minor Diphthong"].

(** [char place[20];] and the other buffers: room for 19 characters and the
    final zero. *)
Definition buffer_size : nat := 20.

(** Test: both labels of an entry fit a buffer. *)
Definition fits (v : string * string) : bool :=
  (String.length (fst v) <? buffer_size)%nat &&
  (String.length (snd v) <? buffer_size)%nat.

(** The line written before the code of index [i] is read. *)
Definition prompt (i : nat) : event :=
  Printf ("Enter intArray[" ++ decimal (Z.of_nat i) ++ "].")%string.

(** What main writes while it reads a count, [n] codes and a selector. *)
Definition questions (n : nat) : trace :=
  [Printf "How many consonants/vowels?"]
    ++ map prompt (seq 0 n)
    ++ [Printf "Vowel or consonant? Enter 0 if consonant, 1 if vowel."].

(** The loop of a routine with sub-feature, observed through both of its
    [previous...] buffers when the loop ends, instead of through the label
    printed. *)
Fixpoint buffersSub (classify : Z -> option (string * string))
         (i : nat) (codes : list Z)
         (previousPlace previousSubPlace : string)
  : option (string * string) :=
  match codes with
  | [] => Some (previousPlace, previousSubPlace)
  | c :: codes' =>
      match classify c with
      | None => None
      | Some (place, subPlace) =>
          match i with
          | O => buffersSub classify (S i) codes' place subPlace
          | S _ =>
              match compareSub place subPlace
                               previousPlace previousSubPlace with
              | Some (p, s) => buffersSub classify (S i) codes' p s
              | None => None
              end
          end
      end
  end.

(** ** Tactics *)

(** Case analysis on a code along the tests [c == k] of a chain. *)
Ltac chain_cases c tac :=
  repeat match goal with
         | |- context [Z.eqb c ?k] =>
             destruct (Z.eqb_spec c k) as [->|?]; [ solve [tac] | ]
         end.

(** * Properties *)

(** ** The loops *)

Lemma strcmp0_refl (a : string) : strcmp0 a a = true.
Proof. apply String.eqb_refl. Qed.

Lemma strcmp0_eq (a b : string) : strcmp0 a b = true <-> a = b.
Proof. apply String.eqb_eq. Qed.

Lemma strcmp0_spec (a b : string) : reflect (a = b) (strcmp0 a b).
Proof. apply String.eqb_spec. Qed.

(** Whatever the comparison block stores, the sub-feature buffer is
    emptied. *)
Lemma compareSub_sub (p s pp ps : string) (st : string * string) :
  compareSub p s pp ps = Some st -> snd st = "".
Proof.
  unfold compareSub.
  repeat match goal with
         | |- context [if ?b then _ else _] => destruct b
         end; intros H; inversion H; reflexivity.
Qed.

(** Without sub-features the comparison block is the plain one. *)
Lemma compareSub_plain (v pv : string) :
  compareSub v "" pv "" =
  match comparePlain v pv with Some p => Some (p, "") | None => None end.
Proof.
  unfold compareSub, comparePlain.
  destruct (strcmp0 v pv); reflexivity.
Qed.

Lemma whilePlain_whileSub (classify : Z -> option string) (codes : list Z) :
  forall (i : nat) (pv : string),
    whilePlain classify i codes pv = whileSub (plain classify) i codes pv "".
Proof.
  induction codes as [|c codes IH]; intros i pv; [reflexivity|].
  cbn [whilePlain whileSub]. unfold plain at 1.
  destruct (classify c) as [v|]; [|reflexivity].
  destruct i as [|i]; [apply IH|].
  rewrite compareSub_plain.
  destruct (comparePlain v pv); [apply IH|reflexivity].
Qed.

(** Every routine is the loop with sub-feature run on its own mapping. *)
Lemma body_feature (r : routine) (codes : list Z) :
  body r codes = whileSub (feature r) 0 codes "" "".
Proof.
  destruct r; cbn [body feature];
    first [ reflexivity | apply whilePlain_whileSub ].
Qed.

Section Loop.

Variable classify : Z -> option (string * string).

(** A code without entry makes the routine return without printing,
    wherever it stands in the sequence. *)
Lemma whileSub_unmapped (codes : list Z) :
  (exists c, In c codes /\ classify c = None) ->
  forall i pp ps, whileSub classify i codes pp ps = None.
Proof.
  induction codes as [|c codes IH]; intros [x [Hin Hx]] i pp ps.
  - destruct Hin.
  - cbn [whileSub].
    destruct (classify c) as [[p s]|] eqn:Hc; [|reflexivity].
    assert (Hrest : exists c, In c codes /\ classify c = None).
    { destruct Hin as [->|Hin]; [congruence|]. exists x. auto. }
    destruct i as [|i]; [apply IH; exact Hrest|].
    destruct (compareSub p s pp ps) as [[p' s']|]; [|reflexivity].
    apply IH; exact Hrest.
Qed.

(** A single code: the first buffer of its entry is printed. *)
Lemma whileSub_single (c : Z) :
  whileSub classify 0 [c] "" "" = option_map fst (classify c).
Proof.
  cbn [whileSub]. destruct (classify c) as [[p s]|]; reflexivity.
Qed.

(** Codes that all have the primary label already held: the first test of
    the comparison block succeeds at each of them. *)
Lemma whileSub_uniform (x : string) (codes : list Z) :
  uniform classify x codes ->
  forall i ps, whileSub classify (S i) codes x ps = Some x.
Proof.
  induction codes as [|c codes IH]; intros U i ps; [reflexivity|].
  cbn [whileSub].
  destruct (U c (or_introl eq_refl)) as [s ->].
  unfold compareSub. rewrite strcmp0_refl.
  apply IH. intros c' Hc'. apply U. right. exact Hc'.
Qed.

Lemma whileSub_uniform_0 (x : string) (c : Z) (codes : list Z) :
  uniform classify x (c :: codes) ->
  whileSub classify 0 (c :: codes) "" "" = Some x.
Proof.
  intros U. cbn [whileSub].
  destruct (U c (or_introl eq_refl)) as [s ->].
  apply whileSub_uniform. intros c' Hc'. apply U. right. exact Hc'.
Qed.

End Loop.

(** ** The charts *)

(** A property of all the codes of a chart, from its instances. *)
Lemma chart_Forall (P : Z -> Prop) (n : nat) :
  Forall P (map Z.of_nat (seq 1 n)) ->
  forall c, 1 <= c <= Z.of_nat n -> P c.
Proof.
  intros H c Hc. rewrite Forall_forall in H. apply H.
  rewrite in_map_iff. exists (Z.to_nat c). split; [lia|].
  apply in_seq. lia.
Qed.

(** Only the codes of the chart of its class pass the chain of a routine. *)
Lemma feature_in_chart (r : routine) (c : Z) (v : string * string) :
  feature r c = Some v -> in_chart (class_of r) c.
Proof.
  destruct r;
    cbv [feature plain class_of in_chart chart_size
         Classify.place Classify.manner Classify.voice Classify.height
         Classify.backness Classify.tenseness Classify.roundedness
         Classify.diphthong];
    chain_cases c ltac:(intros _; lia);
    cbn; discriminate.
Qed.

(** And all of them do. *)
Lemma chart_feature (r : routine) (c : Z) :
  in_chart (class_of r) c -> exists v, feature r c = Some v.
Proof.
  unfold in_chart. revert c. apply chart_Forall.
  destruct r; cbn [class_of chart_size seq map];
    repeat constructor; eexists; vm_compute; reflexivity.
Qed.

Lemma feature_None (r : routine) (c : Z) :
  ~ in_chart (class_of r) c -> feature r c = None.
Proof.
  intros H. destruct (feature r c) as [v|] eqn:E; [|reflexivity].
  exfalso. apply H. eapply feature_in_chart. exact E.
Qed.

Lemma feature_values (r : routine) (c : Z) (v : string * string) :
  feature r c = Some v -> In v (values r).
Proof.
  intros H. pose proof (feature_in_chart _ _ _ H) as Hc. unfold in_chart in Hc.
  unfold values. rewrite in_flat_map. exists (Z.to_nat c). split.
  - apply in_seq. lia.
  - rewrite Z2Nat.id by lia. rewrite H. left. reflexivity.
Qed.

(** Checking a relation between entries by evaluation. *)
Lemma forallb2_In {A B : Type} (f : A -> B -> bool) (la : list A) (lb : list B) :
  forallb (fun a => forallb (f a) lb) la = true ->
  forall a b, In a la -> In b lb -> f a b = true.
Proof.
  intros H a b Ha Hb.
  rewrite forallb_forall in H. specialize (H a Ha).
  rewrite forallb_forall in H. exact (H b Hb).
Qed.

(** ** The comparison block against rules a to e *)

Lemma optional_empty : optional "" = None.
Proof. reflexivity. Qed.

Lemma optional_present (s : string) : s <> "" -> optional s = Some s.
Proof.
  intros H. unfold optional. destruct (strcmp0_spec s ""); congruence.
Qed.

(** The block and the rules differ in one place only: when both
    sub-features are present and differ, the block returns at once, while
    rules c and d are still to be tried.  Off that case they agree. *)
Lemma compareSub_combine (p s pp ps : string) :
  (ps <> "" -> s <> "" -> p = pp) ->
  match compareSub p s pp ps with
  | Some st => Some (toFeatureValue st)
  | None => None
  end = Spec.combine (toFeatureValue (pp, ps)) (toFeatureValue (p, s)).
Proof.
  intros H.
  unfold compareSub, Spec.combine, Spec.first_match, Spec.rule_a, Spec.rule_b,
    Spec.rule_c, Spec.rule_d, toFeatureValue.
  cbn [fst snd Spec.primary Spec.secondary].
  fold (strcmp0 p pp).
  destruct (strcmp0_spec p pp) as [->|Hp].
  - reflexivity.
  - destruct (strcmp0_spec ps "") as [->|Hps];
      destruct (strcmp0_spec s "") as [->|Hs]; cbn [negb andb].
    + reflexivity.
    + rewrite optional_empty, (optional_present _ Hs).
      fold (strcmp0 s pp). destruct (strcmp0 s pp); reflexivity.
    + rewrite optional_empty, (optional_present _ Hps).
      fold (strcmp0 ps p).
      destruct (strcmp0_spec p ps) as [->|Hn].
      * rewrite strcmp0_refl. reflexivity.
      * destruct (strcmp0_spec ps p); [congruence|reflexivity].
    + exfalso. apply Hp. apply H; assumption.
Qed.

(** Where they differ: on labels that no chart of the source has. *)
Lemma compareSub_combine_differ :
  compareSub "B" "C" "A" "B" = None /\
  Spec.combine (toFeatureValue ("A", "B")) (toFeatureValue ("B", "C")) =
  Some {| Spec.primary := "B"; Spec.secondary := None |}.
Proof. split; reflexivity. Qed.

(** In every chart two entries with a sub-feature have the same primary
    label. *)
Lemma values_sub_same_primary (r : routine) (v v' : string * string) :
  In v (values r) -> In v' (values r) ->
  snd v <> "" -> snd v' <> "" -> fst v = fst v'.
Proof.
  intros Hv Hv' Hs Hs'.
  assert (H : sub_same_primary v v' = true).
  { apply (forallb2_In sub_same_primary (values r) (values r));
      [destruct r; vm_compute; reflexivity|exact Hv|exact Hv']. }
  unfold sub_same_primary in H.
  destruct (strcmp0_spec (snd v) ""); [congruence|].
  destruct (strcmp0_spec (snd v') ""); [congruence|].
  apply strcmp0_eq. exact H.
Qed.

Section Refinement.

Variable r : routine.

Lemma mapCodes_unmapped (codes : list Z) :
  Spec.mapCodes (featureTable r) codes = None ->
  exists c, In c codes /\ feature r c = None.
Proof.
  induction codes as [|c codes IH]; cbn [Spec.mapCodes]; [discriminate|].
  unfold featureTable at 1.
  destruct (feature r c) as [v|] eqn:Hc.
  - destruct (Spec.mapCodes (featureTable r) codes); [discriminate|].
    intros _. destruct (IH eq_refl) as [x [Hin Hx]].
    exists x. split; [right; exact Hin|exact Hx].
  - intros _. exists c. split; [left; reflexivity|exact Hc].
Qed.

Lemma mapCodes_None (codes : list Z) :
  (exists c, In c codes /\ feature r c = None) ->
  Spec.mapCodes (featureTable r) codes = None.
Proof.
  induction codes as [|c codes IH]; intros [x [Hin Hx]]; [destruct Hin|].
  cbn [Spec.mapCodes]. unfold featureTable at 1.
  destruct (feature r c) as [v|] eqn:Hc; [|reflexivity].
  rewrite IH; [reflexivity|].
  destruct Hin as [->|Hin]; [congruence|]. exists x. auto.
Qed.

(** The loop after its first iteration, against steps 3 and 4 on the
    mapped values.  The sub-feature buffer is non-empty at the second
    code at most. *)
Lemma whileSub_fold (codes : list Z) :
  forall (i : nat) (pp ps : string) (vs : list Spec.FeatureValue),
    (ps <> "" -> In (pp, ps) (values r)) ->
    Spec.mapCodes (featureTable r) codes = Some vs ->
    whileSub (feature r) (S i) codes pp ps =
    Spec.label (Spec.fold (toFeatureValue (pp, ps)) vs).
Proof.
  induction codes as [|c codes IH]; intros i pp ps vs Hst Hmap.
  - cbn in Hmap. injection Hmap as <-. reflexivity.
  - cbn [Spec.mapCodes] in Hmap. unfold featureTable at 1 in Hmap.
    cbn [whileSub].
    destruct (feature r c) as [[p s]|] eqn:Hc; [|discriminate].
    destruct (Spec.mapCodes (featureTable r) codes) as [vs'|] eqn:Hrest; [|discriminate].
    injection Hmap as <-. cbn [Spec.fold].
    assert (Hagree : ps <> "" -> s <> "" -> p = pp).
    { intros Hps Hs.
      apply (values_sub_same_primary r (p, s) (pp, ps));
        [eapply feature_values; eassumption|auto|exact Hs|exact Hps]. }
    rewrite <- (compareSub_combine _ _ _ _ Hagree).
    destruct (compareSub p s pp ps) as [[p' s']|] eqn:Hcmp; [|reflexivity].
    apply compareSub_sub in Hcmp as Hs'. cbn in Hs'. subst s'.
    apply IH; [congruence|reflexivity].
Qed.

End Refinement.

(** ** Order of the codes *)

Lemma compareSub_covers (p s pp ps : string) (st : string * string) :
  compareSub p s pp ps = Some st ->
  covers (fst st) (p, s) /\ covers (fst st) (pp, ps).
Proof.
  unfold compareSub, covers. cbn [fst snd].
  destruct (strcmp0_spec p pp) as [->|Hp].
  { intros H. injection H as <-. auto. }
  destruct (strcmp0_spec ps "") as [->|Hps];
    destruct (strcmp0_spec s "") as [->|Hs]; cbn [negb andb].
  - discriminate.
  - destruct (strcmp0_spec s pp) as [->|]; [|discriminate].
    intros H. injection H as <-. auto.
  - destruct (strcmp0_spec p ps) as [->|]; [|discriminate].
    intros H. injection H as <-. auto.
  - destruct (strcmp0_spec s ps) as [->|]; [|discriminate].
    intros H. injection H as <-. auto.
Qed.

(** The block gives the same label whichever of the two values came
    first. *)
Lemma compareSub_sym (p s pp ps : string) :
  option_map fst (compareSub p s pp ps) =
  option_map fst (compareSub pp ps p s).
Proof.
  unfold compareSub.
  destruct (strcmp0_spec p pp) as [->|Hp].
  { rewrite strcmp0_refl. reflexivity. }
  destruct (strcmp0_spec pp p) as [->|_]; [congruence|].
  destruct (strcmp0_spec ps "") as [->|Hps];
    destruct (strcmp0_spec s "") as [->|Hs]; cbn [negb andb].
  - reflexivity.
  - rewrite (String.eqb_sym pp s : strcmp0 pp s = strcmp0 s pp).
    destruct (strcmp0_spec s pp) as [->|]; reflexivity.
  - rewrite (String.eqb_sym p ps : strcmp0 p ps = strcmp0 ps p).
    destruct (strcmp0_spec ps p) as [->|]; reflexivity.
  - rewrite (String.eqb_sym ps s : strcmp0 ps s = strcmp0 s ps).
    destruct (strcmp0_spec s ps) as [->|]; reflexivity.
Qed.

Section Order.

Variable classify : Z -> option (string * string).

Lemma whileSub_covers (codes : list Z) :
  forall (i : nat) (pp ps x : string),
    whileSub classify (S i) codes pp ps = Some x ->
    covers x (pp, ps) /\
    forall c, In c codes -> exists v, classify c = Some v /\ covers x v.
Proof.
  induction codes as [|c codes IH]; intros i pp ps x H.
  - cbn in H. injection H as <-. split; [left; reflexivity|].
    intros c [].
  - cbn [whileSub] in H.
    destruct (classify c) as [[p s]|] eqn:Hc; [|discriminate].
    destruct (compareSub p s pp ps) as [[p' s']|] eqn:Hcmp; [|discriminate].
    apply compareSub_sub in Hcmp as Hs'. cbn in Hs'. subst s'.
    destruct (IH _ _ _ _ H) as [Hx Hrest].
    assert (x = p') as ->.
    { destruct Hx as [Hx|[Hx _]]; [exact Hx|]. cbn in Hx. congruence. }
    apply compareSub_covers in Hcmp. cbn [fst] in Hcmp.
    split; [tauto|].
    intros c' [<-|Hin]; [|auto].
    exists (p, s). tauto.
Qed.

Lemma whileSub_covers_0 (c0 : Z) (codes : list Z) (x : string) :
  whileSub classify 0 (c0 :: codes) "" "" = Some x ->
  forall c, In c (c0 :: codes) ->
            exists v, classify c = Some v /\ covers x v.
Proof.
  cbn [whileSub]. intros H.
  destruct (classify c0) as [[p s]|] eqn:Hc; [|discriminate].
  destruct (whileSub_covers _ _ _ _ _ H) as [Hx Hrest].
  intros c [<-|Hin]; [|auto].
  exists (p, s). auto.
Qed.

(** Two codes alone. *)
Lemma whileSub_pair (a b : Z) :
  whileSub classify 0 [a; b] "" "" = whileSub classify 0 [b; a] "" "".
Proof.
  cbn [whileSub].
  destruct (classify a) as [[pa sa]|], (classify b) as [[pb sb]|];
    try reflexivity.
  pose proof (compareSub_sym pb sb pa sa) as H.
  destruct (compareSub pb sb pa sa) as [[? ?]|],
           (compareSub pa sa pb sb) as [[? ?]|];
    cbn in H; congruence.
Qed.

End Order.

(** No chart has an entry (a, b) together with an entry (b, a). *)
Lemma values_not_swapped (r : routine) (a b : string) :
  In (a, b) (values r) -> In (b, a) (values r) -> a = b.
Proof.
  intros Hv Hv'.
  assert (H : not_swapped (a, b) (b, a) = true).
  { apply (forallb2_In not_swapped (values r) (values r));
      [destruct r; vm_compute; reflexivity|exact Hv|exact Hv']. }
  unfold not_swapped in H. cbn [fst snd] in H.
  rewrite !strcmp0_refl in H. cbn in H.
  destruct (strcmp0_spec a b); [assumption|discriminate].
Qed.

(** Whatever the order, a sequence that resolves resolves to one label. *)
Lemma resolved_label_unique (r : routine) (l l' : list Z) (x y : string) :
  Permutation l l' ->
  body r l = Some x -> body r l' = Some y -> x = y.
Proof.
  intros HP Hx Hy. rewrite body_feature in Hx, Hy.
  destruct l as [|c0 l0].
  { apply Permutation_nil in HP. subst l'. cbn in Hx, Hy. congruence. }
  destruct l' as [|c0' l0'].
  { apply Permutation_sym, Permutation_nil in HP. discriminate. }
  destruct (string_dec x y) as [|Hxy]; [assumption|exfalso].
  pose proof (whileSub_covers_0 _ _ _ _ Hx) as Cx.
  pose proof (whileSub_covers_0 _ _ _ _ Hy) as Cy.
  (* every code has the entry (x, y) or the entry (y, x) *)
  assert (E : forall c, In c (c0 :: l0) ->
                        feature r c = Some (x, y) \/ feature r c = Some (y, x)).
  { intros c Hc.
    destruct (Cx c Hc) as [[p s] [Hv Hcx]].
    destruct (Cy c (Permutation_in _ HP Hc)) as [v' [Hv' Hcy]].
    rewrite Hv in Hv'. injection Hv' as <-.
    unfold covers in Hcx, Hcy. cbn [fst snd] in Hcx, Hcy.
    destruct Hcx as [->|[_ ->]], Hcy as [->|[_ ->]];
      solve [congruence | auto]. }
  (* hence all have the same one, and the same primary label *)
  assert (U : exists z, uniform (feature r) z (c0 :: l0)).
  { destruct (E c0 (or_introl eq_refl)) as [H0|H0].
    - exists x. intros c Hc. destruct (E c Hc) as [Hcv|Hcv]; [eauto|].
      exfalso. apply Hxy.
      apply (values_not_swapped r); eapply feature_values; eassumption.
    - exists y. intros c Hc. destruct (E c Hc) as [Hcv|Hcv]; [|eauto].
      exfalso. apply Hxy.
      apply (values_not_swapped r); eapply feature_values; eassumption. }
  destruct U as [z U].
  assert (U' : uniform (feature r) z (c0' :: l0')).
  { intros c Hc. apply U. apply (Permutation_in _ (Permutation_sym HP) Hc). }
  rewrite (whileSub_uniform_0 _ _ _ _ U) in Hx.
  rewrite (whileSub_uniform_0 _ _ _ _ U') in Hy.
  congruence.
Qed.

Lemma flat_same_primary_only (r : routine) (st v st' : string * string) :
  flat r = true -> In st (states r) -> In v (values r) ->
  compareSub (fst v) (snd v) (fst st) (snd st) = Some st' ->
  fst v = fst st /\ st' = (fst st, "").
Proof.
  intros Hr Hst Hv Hcmp.
  assert (H : same_primary_only st v = true).
  { apply (forallb2_In same_primary_only (states r) (values r));
      [destruct r; try discriminate Hr; vm_compute; reflexivity
      |exact Hst|exact Hv]. }
  unfold same_primary_only in H. rewrite Hcmp in H.
  apply strcmp0_eq in H. split; [exact H|].
  unfold compareSub in Hcmp. rewrite H, strcmp0_refl in Hcmp. congruence.
Qed.

Lemma flat_whileSub (r : routine) (codes : list Z) :
  flat r = true ->
  forall (i : nat) (st : string * string) (x : string),
    In st (states r) ->
    whileSub (feature r) (S i) codes (fst st) (snd st) = Some x ->
    x = fst st /\ uniform (feature r) x codes.
Proof.
  intros Hr. induction codes as [|c codes IH]; intros i st x Hst H.
  - cbn in H. injection H as <-. split; [reflexivity|]. intros c [].
  - cbn [whileSub] in H.
    destruct (feature r c) as [[p s]|] eqn:Hc; [|discriminate].
    destruct (compareSub p s (fst st) (snd st)) as [[p' s']|] eqn:Hcmp;
      [|discriminate].
    pose proof (feature_values _ _ _ Hc) as Hv.
    destruct (flat_same_primary_only r st (p, s) (p', s') Hr Hst Hv Hcmp)
      as [Hp Hst'].
    cbn [fst] in Hp. injection Hst' as -> ->.
    assert (Hin : In (fst st, "") (states r)).
    { unfold states. apply in_or_app. right.
      apply in_map_iff. exists (p, s). cbn [fst]. split; [congruence|exact Hv]. }
    destruct (IH (S i) (fst st, "") x Hin H) as [-> U]. cbn [fst] in *.
    split; [reflexivity|].
    intros c' [<-|Hin']; [|auto].
    exists s. congruence.
Qed.

Lemma flat_resolved (r : routine) (c : Z) (codes : list Z) (x : string) :
  flat r = true ->
  body r (c :: codes) = Some x -> uniform (feature r) x (c :: codes).
Proof.
  intros Hr H. rewrite body_feature in H. cbn [whileSub] in H.
  destruct (feature r c) as [[p s]|] eqn:Hc; [|discriminate].
  assert (Hst : In (p, s) (states r)).
  { unfold states. apply in_or_app. left. eapply feature_values. exact Hc. }
  destruct (flat_whileSub r codes Hr 0%nat (p, s) x Hst H) as [-> U].
  intros c' [<-|Hin]; [eauto|auto].
Qed.

Lemma flat_permutation_resolved (r : routine) (l l' : list Z) (x : string) :
  flat r = true -> Permutation l l' ->
  body r l = Some x -> body r l' = Some x.
Proof.
  intros Hr HP H.
  destruct l as [|c l0].
  { apply Permutation_nil in HP. subst l'. exact H. }
  destruct l' as [|c' l0'].
  { apply Permutation_sym, Permutation_nil in HP. discriminate. }
  pose proof (flat_resolved r c l0 x Hr H) as U.
  rewrite body_feature. apply whileSub_uniform_0.
  intros d Hd. apply U. apply (Permutation_in _ (Permutation_sym HP) Hd).
Qed.

Lemma flat_permutation (r : routine) (l l' : list Z) :
  flat r = true -> Permutation l l' -> body r l = body r l'.
Proof.
  intros Hr HP.
  destruct (body r l) as [x|] eqn:Hl.
  - symmetry. eapply flat_permutation_resolved; eassumption.
  - destruct (body r l') as [y|] eqn:Hl'; [|reflexivity].
    rewrite (flat_permutation_resolved r l' l y Hr (Permutation_sym HP) Hl')
      in Hl.
    discriminate.
Qed.

Lemma short_permutation (r : routine) (l l' : list Z) :
  (List.length l <= 2)%nat -> Permutation l l' -> body r l = body r l'.
Proof.
  intros Hlen HP.
  destruct l as [|a [|b [|? ?]]]; cbn in Hlen; try lia.
  - apply Permutation_nil in HP. subst. reflexivity.
  - apply Permutation_length_1_inv in HP. subst. reflexivity.
  - apply Permutation_length_2_inv in HP. destruct HP as [->| ->].
    + reflexivity.
    + rewrite !body_feature. apply whileSub_pair.
Qed.

(** Once the sub-feature buffer is empty, the block accepts exactly the
    entries that have the label held, and keeps that label. *)
Lemma compareSub_settled (p s y : string) :
  compareSub p s y "" = if carries y (p, s) then Some (y, "") else None.
Proof.
  unfold compareSub, carries. cbn [fst snd].
  destruct (strcmp0_spec p y) as [->|Hp]; [reflexivity|].
  rewrite strcmp0_refl. cbn [negb andb orb].
  destruct (strcmp0_spec s "") as [->|Hs]; cbn [negb andb]; [reflexivity|].
  destruct (strcmp0_spec s y) as [->|]; reflexivity.
Qed.

Lemma whileSub_settled (classify : Z -> option (string * string))
      (codes : list Z) :
  forall (i : nat) (y : string),
    whileSub classify (S i) codes y "" =
    if forallb (accepts classify y) codes then Some y else None.
Proof.
  induction codes as [|c codes IH]; intros i y; [reflexivity|].
  cbn [whileSub forallb]. unfold accepts at 1.
  destruct (classify c) as [[p s]|]; [|reflexivity].
  rewrite compareSub_settled.
  destruct (carries y (p, s)); [apply IH|reflexivity].
Qed.

Lemma covers_carries (x : string) (v : string * string) :
  covers x v -> carries x v = true.
Proof.
  unfold covers, carries. intros [->|[Hs ->]].
  - rewrite strcmp0_refl. reflexivity.
  - rewrite strcmp0_refl.
    destruct (strcmp0_spec (snd v) ""); [contradiction|].
    apply orb_true_r.
Qed.

(** Two codes that print x alone both have the label x. *)
Lemma pair_accepts (r : routine) (a c : Z) (x : string) :
  body r [a; c] = Some x -> accepts (feature r) x c = true.
Proof.
  rewrite body_feature. intros H.
  destruct (whileSub_covers_0 _ _ _ _ H c (or_intror (or_introl eq_refl)))
    as [v [Hv Hx]].
  unfold accepts. rewrite Hv. apply covers_carries. exact Hx.
Qed.

(** A sequence of two codes or more prints what its first two codes print,
    or nothing. *)
Lemma body_first_two (r : routine) (a b : Z) (m : list Z) (x : string) :
  body r (a :: b :: m) = Some x -> body r [a; b] = Some x.
Proof.
  rewrite !body_feature. cbn [whileSub].
  destruct (feature r a) as [[pa sa]|]; [|discriminate].
  destruct (feature r b) as [[pb sb]|]; [|discriminate].
  destruct (compareSub pb sb pa sa) as [[p' s']|] eqn:Hcmp; [|discriminate].
  apply compareSub_sub in Hcmp. cbn in Hcmp. subst s'.
  rewrite whileSub_settled.
  destruct (forallb (accepts (feature r) p') m); [|discriminate].
  intros H. exact H.
Qed.

(** Codes whose pairs all print x print x, in the order given. *)
Lemma pairs_resolve_body (r : routine) (a b : Z) (m : list Z) (x : string) :
  pairs_resolve_to r x (a :: b :: m) -> body r (a :: b :: m) = Some x.
Proof.
  intros P.
  pose proof (P a b m (Permutation_refl _)) as Hab.
  assert (Hm : forallb (accepts (feature r) x) m = true).
  { apply forallb_forall. intros c Hc.
    apply (pair_accepts r a). apply in_split in Hc.
    destruct Hc as [m1 [m2 ->]].
    apply (P a c (b :: m1 ++ m2)).
    apply perm_skip.
    change (b :: m1 ++ c :: m2) with ((b :: m1) ++ c :: m2).
    apply Permutation_sym, (Permutation_middle (b :: m1) m2 c). }
  revert Hab. rewrite !body_feature. cbn [whileSub].
  destruct (feature r a) as [[pa sa]|]; [|discriminate].
  destruct (feature r b) as [[pb sb]|]; [|discriminate].
  destruct (compareSub pb sb pa sa) as [[p' s']|] eqn:Hcmp; [|discriminate].
  apply compareSub_sub in Hcmp. cbn in Hcmp. subst s'.
  intros Hab. injection Hab as ->.
  rewrite whileSub_settled, Hm. reflexivity.
Qed.

(** Distinct codes: the pairs are the pairs of different codes. *)
Lemma pairs_of_distinct (r : routine) (x : string) (l : list Z) :
  NoDup l ->
  (forall a b, In a l -> In b l -> a <> b -> body r [a; b] = Some x) ->
  pairs_resolve_to r x l.
Proof.
  intros N H a b rest HP.
  pose proof (Permutation_NoDup HP N) as N'.
  inversion N' as [|? ? Ha _]. subst.
  apply H.
  - apply (Permutation_in _ (Permutation_sym HP)). left. reflexivity.
  - apply (Permutation_in _ (Permutation_sym HP)). right. left. reflexivity.
  - intros ->. apply Ha. left. reflexivity.
Qed.

(** ** The tables of section 4.1 *)

Lemma table_in_chart (r : routine) (c : Z) (v : Spec.FeatureValue) :
  Spec.table (dimension_of r) c = Some v -> in_chart (class_of r) c.
Proof.
  unfold in_chart.
  destruct r;
    cbv [class_of chart_size dimension_of Spec.table Spec.rows_of
         Spec.lookup existsb];
    chain_cases c ltac:(intros _; lia);
    cbn; discriminate.
Qed.

(** The mapping of each routine is the table of its dimension, with the
    labels as the source spells them. *)
Lemma featureTable_spelled (r : routine) (c : Z) :
  featureTable r c = option_map respell (Spec.table (dimension_of r) c).
Proof.
  destruct (Z_le_dec 1 c) as [Hlo|Hlo];
    [destruct (Z_le_dec c (Z.of_nat (chart_size (class_of r)))) as [Hhi|Hhi]|].
  - revert c Hlo Hhi.
    enough (H : forall c, 1 <= c <= Z.of_nat (chart_size (class_of r)) ->
                          featureTable r c =
                          option_map respell (Spec.table (dimension_of r) c))
      by (intros; apply H; lia).
    apply chart_Forall.
    destruct r; cbn [class_of chart_size seq map];
      repeat constructor; vm_compute; reflexivity.
  - unfold featureTable. rewrite feature_None by (unfold in_chart; lia).
    destruct (Spec.table (dimension_of r) c) eqn:E; [|reflexivity].
    apply table_in_chart in E. unfold in_chart in E. lia.
  - unfold featureTable. rewrite feature_None by (unfold in_chart; lia).
    destruct (Spec.table (dimension_of r) c) eqn:E; [|reflexivity].
    apply table_in_chart in E. unfold in_chart in E. lia.
Qed.

(** In no entry is the sub-feature the primary label again. *)
Lemma values_sub_differs (r : routine) (v : string * string) :
  In v (values r) -> fst v <> snd v.
Proof.
  intros Hv.
  assert (H : forallb sub_differs (values r) = true)
    by (destruct r; vm_compute; reflexivity).
  rewrite forallb_forall in H. specialize (H v Hv).
  unfold sub_differs in H.
  destruct (strcmp0_spec (fst v) (snd v)); [discriminate|assumption].
Qed.

(** ** The input loop of main *)

Lemma update_length (l : list Z) :
  forall n v, List.length (update l n v) = List.length l.
Proof.
  induction l as [|x l IH]; intros [|n] v; cbn; auto.
Qed.

Lemma update_middle (done tail : list Z) (y v : Z) :
  update (done ++ y :: tail) (List.length done) v = done ++ v :: tail.
Proof.
  induction done as [|x done IH]; cbn; [reflexivity|]. now rewrite IH.
Qed.

Lemma store_next (done tail : list Z) (y v : Z) :
  store (done ++ y :: tail) (Z.of_nat (List.length done)) v =
  Some (done ++ v :: tail).
Proof.
  unfold store. rewrite length_app. cbn [List.length].
  replace ((0 <=? Z.of_nat (List.length done)) &&
           (Z.of_nat (List.length done) <?
            Z.of_nat (List.length done + S (List.length tail)))) with true
    by (symmetry; apply andb_true_iff; split;
        [apply Z.leb_le|apply Z.ltb_lt]; lia).
  rewrite Nat2Z.id, update_middle. reflexivity.
Qed.

Lemma store_past (intArray : list Z) (v : Z) :
  store intArray (Z.of_nat (List.length intArray)) v = None.
Proof.
  unfold store. rewrite Z.ltb_irrefl, andb_false_r. reflexivity.
Qed.

Lemma next_index (done : list Z) (v : Z) :
  Z.of_nat (List.length done) + 1 = Z.of_nat (List.length (done ++ [v])).
Proof. rewrite length_app. cbn. lia. Qed.

Lemma store_beyond (intArray : list Z) (k : nat) (v : Z) :
  (List.length intArray <= k)%nat -> store intArray (Z.of_nat k) v = None.
Proof.
  intros H. unfold store.
  destruct (Z.ltb_spec (Z.of_nat k) (Z.of_nat (List.length intArray)));
    [lia|].
  rewrite andb_false_r. reflexivity.
Qed.

Lemma ints_firstn_S (n : nat) (v : Z) (stdin : list Z) :
  ints (firstn (S n) (v :: stdin)) ->
  is_int v = true /\ ints (firstn n stdin).
Proof. cbn [firstn]. intros H. inversion H. split; assumption. Qed.

Lemma ints_firstn_pred (n : nat) :
  forall stdin, ints (firstn (S n) stdin) -> ints (firstn n stdin).
Proof.
  induction n as [|n IH]; intros stdin H; [constructor|].
  destruct stdin as [|v stdin]; [constructor|].
  apply ints_firstn_S in H. destruct H as [Hv H].
  cbn [firstn]. constructor; [exact Hv|apply IH; exact H].
Qed.

Lemma scanf_d_int (n : nat) (stdin : list Z) :
  ints (firstn (S n) stdin) ->
  scanf_d stdin = match stdin with
                  | [] => Unassigned
                  | v :: stdin' => Assigned v stdin'
                  end.
Proof.
  intros H. destruct stdin as [|v stdin]; [reflexivity|].
  apply ints_firstn_S in H. destruct H as [Hv _].
  cbn. rewrite Hv. reflexivity.
Qed.

Lemma scanf_d_selector (n : nat) :
  forall stdin,
    ints (firstn (S n) stdin) ->
    scanf_d (skipn n stdin) = match skipn n stdin with
                              | [] => Unassigned
                              | v :: stdin' => Assigned v stdin'
                              end.
Proof.
  induction n as [|n IH]; intros stdin H.
  - apply (scanf_d_int 0). exact H.
  - destruct stdin as [|v stdin]; [reflexivity|].
    apply ints_firstn_S in H. destruct H as [_ H].
    cbn [skipn]. apply IH. exact H.
Qed.

(** The loop started past the array: every number read is stored outside,
    at the index of its iteration. *)
Lemma fill_past (n : nat) :
  forall (k : nat) (intArray stdin : list Z) (outside : list (Z * Z))
         (t : trace),
    ints (firstn n stdin) -> (List.length intArray <= k)%nat ->
    fill n (Z.of_nat k) intArray stdin outside t =
    Ok (intArray, skipn n stdin,
        outside ++ combine (map Z.of_nat (seq k n)) (firstn n stdin))
       (t ++ map prompt (seq k n)).
Proof.
  induction n as [|n IH]; intros k intArray stdin outside t Hint Hk.
  - cbn. rewrite !app_nil_r. reflexivity.
  - cbn [fill]. rewrite (scanf_d_int _ _ Hint).
    replace (Z.of_nat k + 1) with (Z.of_nat (S k)) by lia.
    destruct stdin as [|v stdin].
    + rewrite IH; [|rewrite firstn_nil; constructor|lia].
      cbn [seq map firstn skipn combine]. rewrite skipn_nil, firstn_nil.
      rewrite combine_nil, <- app_assoc. reflexivity.
    + apply ints_firstn_S in Hint. destruct Hint as [_ Hint].
      rewrite store_beyond by exact Hk.
      rewrite IH; [|exact Hint|lia].
      cbn [seq map firstn skipn combine]. rewrite <- !app_assoc.
      reflexivity.
Qed.

(** The loop in general, with [done] the cells before the index and [tail]
    the cells from the index on: the numbers read fill [tail] as far as it
    goes, the following ones are stored outside. *)
Lemma fill_closed (tail : list Z) :
  forall (n : nat) (done stdin : list Z) (outside : list (Z * Z))
         (t : trace),
    ints (firstn n stdin) ->
    fill n (Z.of_nat (List.length done)) (done ++ tail) stdin outside t =
    Ok (done ++ firstn (List.length tail) (firstn n stdin)
             ++ skipn (List.length (firstn n stdin)) tail,
        skipn n stdin,
        outside
          ++ combine (map Z.of_nat
                          (seq (List.length done + List.length tail)
                               (n - List.length tail)))
                     (skipn (List.length tail) (firstn n stdin)))
       (t ++ map prompt (seq (List.length done) n)).
Proof.
  induction tail as [|y tail IH]; intros n done stdin outside t Hint.
  - rewrite fill_past by (auto; rewrite length_app; cbn; lia).
    cbn [List.length firstn skipn app]. rewrite skipn_nil, !app_nil_r.
    rewrite Nat.add_0_r, Nat.sub_0_r. reflexivity.
  - destruct n as [|n].
    + cbn. rewrite !app_nil_r. reflexivity.
    + cbn [fill]. rewrite (scanf_d_int _ _ Hint).
      destruct stdin as [|v stdin].
      * rewrite (next_index done y).
        replace (done ++ y :: tail) with ((done ++ [y]) ++ tail)
          by (rewrite <- app_assoc; reflexivity).
        rewrite IH by (rewrite firstn_nil; constructor).
        cbn [firstn skipn List.length seq map].
        rewrite !firstn_nil, !skipn_nil. cbn [List.length skipn app].
        rewrite !combine_nil, <- !app_assoc. cbn [app].
        rewrite length_app. cbn [List.length].
        replace (List.length done + 1)%nat with (S (List.length done)) by lia.
        reflexivity.
      * rewrite store_next.
        replace (done ++ v :: tail) with ((done ++ [v]) ++ tail)
          by (rewrite <- app_assoc; reflexivity).
        rewrite (next_index done v).
        rewrite IH by (apply ints_firstn_S in Hint; apply Hint).
        cbn [firstn skipn List.length seq map].
        rewrite <- !app_assoc. cbn [app].
        rewrite !length_app. cbn [List.length].
        replace (List.length done + 1)%nat with (S (List.length done)) by lia.
        replace (S (List.length done) + List.length tail)%nat
          with (List.length done + S (List.length tail))%nat by lia.
        replace (S n - S (List.length tail))%nat
          with (n - List.length tail)%nat by lia.
        reflexivity.
Qed.

(** The three questions in closed form, when the numbers read are in the
    range of [int]. *)
Lemma ask_closed (junk : indeterminate) (num : Z) (rest : list Z) :
  ints (read num rest) ->
  ask junk (num :: rest) =
  match outside_stores num rest with
  | [] =>
      Ok (num,
          firstn intArray_size (firstn (Z.to_nat num) rest)
            ++ skipn (List.length (firstn (Z.to_nat num) rest)) (initial junk),
          match skipn (Z.to_nat num) rest with
          | v :: _ => v
          | [] => as_int (unset_consonantVowel junk)
          end)
         (questions (Z.to_nat num))
  | _ :: _ =>
      Fault (StoreOutOfBounds (outside_stores num rest))
            (questions (Z.to_nat num))
  end.
Proof.
  intros Hint. unfold read in Hint.
  inversion Hint as [|? ? Hnum Hrest]. subst.
  unfold ask. cbn [scanf_d]. rewrite Hnum.
  unfold ask_codes.
  pose proof (fill_closed (initial junk) (Z.to_nat num) [] rest []
                          [Printf "How many consonants/vowels?"]
                          (ints_firstn_pred _ _ Hrest)) as E.
  cbn [List.length Z.of_nat app Nat.add] in E.
  assert (L : List.length (initial junk) = intArray_size)
    by (unfold initial; rewrite length_map, length_seq; reflexivity).
  rewrite L in E. rewrite E.
  rewrite (scanf_d_selector _ _ Hrest).
  fold (outside_stores num rest).
  replace (([Printf "How many consonants/vowels?"]
              ++ map prompt (seq 0 (Z.to_nat num)))
             ++ [Printf "Vowel or consonant? Enter 0 if consonant, 1 if vowel."])
    with (questions (Z.to_nat num))
    by (unfold questions; rewrite <- app_assoc; reflexivity).
  destruct (skipn (Z.to_nat num) rest), (outside_stores num rest);
    reflexivity.
Qed.

(** At least eight numbers after a count above 7: the eighth is the first
    that is stored outside, at index 7. *)
Lemma outside_stores_eighth (num : Z) (rest : list Z) :
  7 < num -> (8 <= List.length rest)%nat ->
  exists v stores,
    nth_error rest 7 = Some v /\
    outside_stores num rest = (7, v) :: stores.
Proof.
  intros Hnum Hlen. unfold outside_stores, intArray_size.
  destruct rest as [|a0 [|a1 [|a2 [|a3 [|a4 [|a5 [|a6 [|v rest]]]]]]]];
    cbn in Hlen; try lia.
  remember (Z.to_nat num) as n eqn:En.
  destruct n as [|[|[|[|[|[|[|[|n]]]]]]]]; try lia.
  exists v. eexists. split; reflexivity.
Qed.

(** Numbers for a count of at most 7: nothing is stored outside. *)
Lemma outside_stores_none (num : Z) (rest : list Z) :
  num <= 7 -> outside_stores num rest = [].
Proof.
  intros Hnum. unfold outside_stores, intArray_size.
  replace (Z.to_nat num - 7)%nat with 0%nat by lia. reflexivity.
Qed.

(** ** The calls of main *)

Lemma dispatch_class (k : PhonemeClass) (codes : list Z) (t : trace) :
  dispatch (selector k) codes t =
  (0, t ++ flat_map (fun r => Call r codes :: prints r codes) (routines_of k)
        ++ [Printf "========END========"]).
Proof.
  destruct k; cbn [dispatch selector Z.eqb routines_of flat_map];
    unfold call; repeat rewrite <- app_assoc; cbn [app];
    rewrite ?app_nil_r; reflexivity.
Qed.

Lemma class_routines (r : routine) : In r (routines_of (class_of r)).
Proof. destruct r; cbn; tauto. Qed.

Lemma routines_class (k : PhonemeClass) (r : routine) :
  In r (routines_of k) -> class_of r = k.
Proof. destruct k, r; cbn; intuition discriminate. Qed.

Lemma stdout_app (t t' : trace) : stdout (t ++ t') = stdout t ++ stdout t'.
Proof. apply flat_map_app. Qed.

Lemma calls_app (t t' : trace) : calls (t ++ t') = calls t ++ calls t'.
Proof. apply flat_map_app. Qed.

(** ** The scenarios of section 8 *)

Example consonants_p_b :
  body ConPlaceArticulation [1; 2] = Some "Labial" /\
  body ConMannerArticulation [1; 2] = Some "Stop" /\
  body ConVoicing [1; 2] = None.
Proof. repeat split. Qed.

Example consonants_f_w :
  body ConPlaceArticulation [4; 23] = Some "Labial".
Proof. reflexivity. Qed.

Example vowels_1_2 :
  body VowHeight [1; 2] = Some "High" /\
  body VowBackness [1; 2] = Some "Front" /\
  body VowTenseness [1; 2] = None.
Proof. repeat split. Qed.

Example run_p_b :
  main zeros [2; 1; 2; 0] =
  Ok 0 [Printf "How many consonants/vowels?";
        Printf "Enter intArray[0]."; Printf "Enter intArray[1].";
        Printf "Vowel or consonant? Enter 0 if consonant, 1 if vowel.";
        Call ConPlaceArticulation [1; 2];
        Printf "The common place of articulation is: Labial";
        Call ConMannerArticulation [1; 2];
        Printf "The common manner of articulation is: Stop";
        Call ConVoicing [1; 2];
        Printf "========END========"].
Proof. vm_compute. reflexivity. Qed.

(** main after its questions, for a count within the array. *)
Lemma main_dispatch (junk : indeterminate) (stdin : list Z)
      (num : Z) (intArray : list Z) (consonantVowel : Z) (t : trace) :
  ask junk stdin = Ok (num, intArray, consonantVowel) t ->
  num <= 7 ->
  main junk stdin =
  Ok (fst (dispatch consonantVowel (cells intArray num) t))
     (snd (dispatch consonantVowel (cells intArray num) t)).
Proof.
  intros E Hnum. unfold main. rewrite E.
  destruct (Z.leb_spec num (Z.of_nat intArray_size));
    [|unfold intArray_size in *; lia].
  destruct (dispatch consonantVowel (cells intArray num) t). reflexivity.
Qed.

(** On short input a routine reads cells that were never written: with the
    count 2 and the single code 1 on the input, the label depends on what
    [intArray[1]] happens to hold. *)
Example short_input_reads_unset_cell :
  stdout (match main zeros [2; 1] with Ok _ t | Fault _ t => t end) <>
  stdout (match main {| unset_num := 0;
                        unset_intArray := fun _ => 1;
                        unset_consonantVowel := 0 |} [2; 1]
          with Ok _ t | Fault _ t => t end).
Proof. vm_compute. discriminate. Qed.

(** The questions for the count and the codes it asks for, followed by the
    selector, when the array has room. *)
Lemma ask_room (junk : indeterminate) (num : Z) (codes : list Z)
      (consonantVowel : Z) (rest : list Z) :
  ints (read num (codes ++ consonantVowel :: rest)) ->
  num <= 7 -> List.length codes = Z.to_nat num ->
  ask junk (num :: codes ++ consonantVowel :: rest) =
  Ok (num, codes ++ skipn (List.length codes) (initial junk), consonantVowel)
     (questions (List.length codes)).
Proof.
  intros Hint Hnum Hlen.
  rewrite (ask_closed _ _ _ Hint), (outside_stores_none _ _ Hnum).
  rewrite <- Hlen.
  rewrite firstn_app, Nat.sub_diag, firstn_all. cbn [firstn].
  rewrite app_nil_r.
  rewrite skipn_app, Nat.sub_diag, skipn_all. cbn [skipn app].
  rewrite firstn_all2 by (unfold intArray_size; lia).
  reflexivity.
Qed.

(** * The claims *)

(** ** C1: the routines against the generic reducer *)

(** C1, as stated, fails on the empty sequence: the generic reduction has no
    first code to start from and yields no label (section 4.3 has the empty
    sequence treated as a no-op or an invalid input), while every routine
    skips its loop and prints its still empty buffer as the common label. *)
Lemma empty_sequence_not_reduced :
  body ConPlaceArticulation [] = Some "" /\
  Spec.reduce (featureTable ConPlaceArticulation) [] = Spec.EmptyInput /\
  ~ (forall (r : routine) (codes : list Z),
        body r codes = Spec.label (Spec.reduce (featureTable r) codes)).
Proof.
  repeat split.
  intros H. specialize (H ConPlaceArticulation []). discriminate H.
Qed.

(** C1 (amended): for every input sequence with at least one code, each of
    the eight routines computes the generic two-level reduction of section
    4.2 on its own feature table: all codes mapped (a code without entry
    gives no label), the running value started from the first code, rules
    a to e applied in this precedence to each later value, and the final
    running primary label reported on success. *)
Theorem routines_refine_reducer (r : routine) (c : Z) (codes : list Z) :
  body r (c :: codes) =
  Spec.label (Spec.reduce (featureTable r) (c :: codes)).
Proof.
  rewrite body_feature. unfold Spec.reduce.
  destruct (Spec.mapCodes (featureTable r) (c :: codes)) as [vs|] eqn:Hmap.
  - cbn [Spec.mapCodes] in Hmap. unfold featureTable at 1 in Hmap.
    cbn [whileSub].
    destruct (feature r c) as [[p s]|] eqn:Hc; [|discriminate].
    destruct (Spec.mapCodes (featureTable r) codes) as [vs'|] eqn:Hrest; [|discriminate].
    injection Hmap as <-.
    apply whileSub_fold; [|exact Hrest].
    intros _. eapply feature_values. exact Hc.
  - apply whileSub_unmapped. apply mapCodes_unmapped. exact Hmap.
Qed.

(** ** C2: order of the codes *)

(** C2, as stated, fails for the place and the manner of articulation: the
    codes 23, 23, 20 (w, w, k) agree pairwise on the place, yet in this
    order the routine returns without label, and in the order 23, 20, 23 it
    prints "Velar"; likewise 3, 10, 1 (m, n, p) against 3, 1, 10 for the
    manner, which prints "Stop". *)
Lemma order_changes_outcome :
  ~ order_independent ConPlaceArticulation /\
  ~ order_independent ConMannerArticulation.
Proof.
  split; intros H.
  - specialize (H [23; 23; 20] [23; 20; 23]).
    assert (E : body ConPlaceArticulation [23; 23; 20] =
                body ConPlaceArticulation [23; 20; 23]).
    { apply H.
      - intros a b Ha Hb. cbn in Ha, Hb.
        destruct Ha as [<-|[<-|[<-|[]]]], Hb as [<-|[<-|[<-|[]]]];
          eexists; vm_compute; reflexivity.
      - apply perm_skip, perm_swap. }
    vm_compute in E. discriminate E.
  - specialize (H [3; 10; 1] [3; 1; 10]).
    assert (E : body ConMannerArticulation [3; 10; 1] =
                body ConMannerArticulation [3; 1; 10]).
    { apply H.
      - intros a b Ha Hb. cbn in Ha, Hb.
        destruct Ha as [<-|[<-|[<-|[]]]], Hb as [<-|[<-|[<-|[]]]];
          eexists; vm_compute; reflexivity.
      - apply perm_skip, perm_swap. }
    vm_compute in E. discriminate E.
Qed.

(** C2 (amended): for every multiset of two or more codes in which every
    pair of codes, reduced alone, resolves to one and the same label x, and
    for every dimension, reducing the codes in any order yields x: no
    ordering fails.  The restriction is the one the counterexamples force:
    (2) if every ordering resolves, then all pairs resolve to one label;
    (3) if two pairs resolve to different labels, an ordering that starts
    with one of them fails.  Besides, for two orderings of any codes:
    (4) in the six dimensions voicing, height, backness, tenseness,
    roundedness and diphthong status the outcome is the same; (5) in every
    dimension the outcome is the same when there are at most two codes;
    (6) in every dimension, if both orderings resolve, they resolve to the
    same label. *)
Theorem reduction_order (r : routine) (l l' : list Z)
        (HP : Permutation l l') :
  (forall x, (2 <= List.length l)%nat -> pairs_resolve_to r x l ->
             body r l' = Some x) /\
  ((forall k, Permutation l k -> exists x, body r k = Some x) ->
   exists x, pairs_resolve_to r x l) /\
  (forall a b rest c d rest' x y,
      Permutation l (a :: b :: rest) -> Permutation l (c :: d :: rest') ->
      body r [a; b] = Some x -> body r [c; d] = Some y -> x <> y ->
      body r (a :: b :: rest) = None \/ body r (c :: d :: rest') = None) /\
  (flat r = true -> body r l = body r l') /\
  ((List.length l <= 2)%nat -> body r l = body r l') /\
  (forall x y, body r l = Some x -> body r l' = Some y -> x = y).
Proof.
  repeat apply conj.
  - intros x Hlen P.
    assert (P' : pairs_resolve_to r x l').
    { intros a b rest Hk. apply (P a b rest).
      eapply Permutation_trans; eassumption. }
    apply Permutation_length in HP.
    destruct l' as [|a [|b m]]; cbn in HP; try lia.
    apply pairs_resolve_body. exact P'.
  - intros A. destruct (A l (Permutation_refl _)) as [z Hz].
    exists z. intros a b rest Hk.
    destruct (A _ Hk) as [w Hw].
    assert (w = z) as ->
      by (apply (resolved_label_unique r _ _ w z (Permutation_sym Hk));
          assumption).
    eapply body_first_two. exact Hw.
  - intros a b rest c d rest' x y Hk Hk' Hx Hy Hxy.
    destruct (body r (a :: b :: rest)) as [u|] eqn:Hu; [|left; reflexivity].
    destruct (body r (c :: d :: rest')) as [w|] eqn:Hw; [|right; reflexivity].
    exfalso. apply Hxy.
    apply body_first_two in Hu as Hu2. apply body_first_two in Hw as Hw2.
    assert (u = w).
    { apply (resolved_label_unique r (a :: b :: rest) (c :: d :: rest'));
        [|assumption|assumption].
      eapply Permutation_trans; [apply Permutation_sym; exact Hk|exact Hk']. }
    congruence.
  - intros Hr. apply flat_permutation; assumption.
  - intros Hlen. apply short_permutation; assumption.
  - intros x y. apply resolved_label_unique. exact HP.
Qed.

Lemma reduction_order_witness :
  Permutation [23; 20; 21] [20; 21; 23] /\
  (2 <= List.length [23; 20; 21])%nat /\
  pairs_resolve_to ConPlaceArticulation "Velar" [23; 20; 21] /\
  body ConPlaceArticulation [20; 21; 23] = Some "Velar".
Proof.
  assert (HP : Permutation [23; 20; 21] [20; 21; 23]).
  { eapply perm_trans; [apply perm_swap|apply perm_skip, perm_swap]. }
  assert (Hlen : (2 <= List.length [23; 20; 21])%nat) by (cbn; lia).
  assert (P : pairs_resolve_to ConPlaceArticulation "Velar" [23; 20; 21]).
  { apply pairs_of_distinct.
    - repeat constructor; cbn; intuition discriminate.
    - intros a b Ha Hb Hne. cbn in Ha, Hb.
      destruct Ha as [<-|[<-|[<-|[]]]], Hb as [<-|[<-|[<-|[]]]];
        solve [reflexivity | exfalso; apply Hne; reflexivity]. }
  split; [exact HP|split; [exact Hlen|split; [exact P|]]].
  exact (proj1 (reduction_order ConPlaceArticulation _ _ HP) "Velar" Hlen P).
Defined.

(** ** C3: the tables *)

(** C3, as stated, fails on the spelling of three labels: for the vowel 1
    the routine of the diphthong status has the label "Simple Vowel", the
    table of section 4.1 has "SimpleVowel" (and so for "Major Diphthong"
    and "Minor Diphthong"). *)
Lemma diphthong_labels_spelled_differently :
  featureTable VowDiphthong 1 <> Spec.table (dimension_of VowDiphthong) 1 /\
  featureTable VowDiphthong 10 <> Spec.table (dimension_of VowDiphthong) 10 /\
  featureTable VowDiphthong 5 <> Spec.table (dimension_of VowDiphthong) 5.
Proof. repeat split; vm_compute; discriminate. Qed.

(** C3 (amended): for every code, the mapping of each of the eight routines
    gives exactly the primary and secondary labels of the tables of section
    4.1, the three labels of the diphthong status being spelled "Simple
    Vowel", "Major Diphthong" and "Minor Diphthong"; the codes mapped are
    exactly 1 to 25 for the consonant routines and 1 to 15 for the vowel
    routines. *)
Theorem feature_tables (r : routine) (c : Z) :
  featureTable r c = option_map respell (Spec.table (dimension_of r) c) /\
  (featureTable r c <> None <-> in_chart (class_of r) c) /\
  (r <> VowDiphthong ->
   featureTable r c = Spec.table (dimension_of r) c).
Proof.
  split; [apply featureTable_spelled|split].
  - unfold featureTable. split.
    + destruct (feature r c) as [v|] eqn:E; [|congruence].
      intros _. eapply feature_in_chart. exact E.
    + intros H. destruct (chart_feature r c H) as [v ->]. discriminate.
  - intros Hr. rewrite featureTable_spelled.
    destruct (Spec.table (dimension_of r) c) as [v|] eqn:E; [|reflexivity].
    cbn [option_map]. f_equal.
    destruct r; try congruence; clear Hr;
      revert E;
      cbv [dimension_of Spec.table Spec.rows_of Spec.lookup];
      repeat match goal with
             | |- context [if ?b then _ else _] => destruct b
             end;
      intros E; inversion E; reflexivity.
Qed.

(** ** C4: a single code *)

(** C4: for a single code of the chart of the class, every routine of the
    class reaches its [printf] and the label printed is the primary label
    of the code, which is never its sub-feature. *)
Theorem single_code_primary (r : routine) (c : Z)
        (H : in_chart (class_of r) c) :
  exists v, feature r c = Some v /\
            body r [c] = Some (fst v) /\
            body r [c] <> Some (snd v).
Proof.
  destruct (chart_feature r c H) as [v Hv]. exists v.
  assert (E : body r [c] = Some (fst v)).
  { rewrite body_feature, whileSub_single, Hv. reflexivity. }
  repeat split; [exact Hv|exact E|].
  rewrite E. intros D. injection D as D.
  exact (values_sub_differs r v (feature_values _ _ _ Hv) D).
Qed.

Lemma single_code_primary_witness :
  in_chart (class_of ConPlaceArticulation) 23 /\
  exists v, feature ConPlaceArticulation 23 = Some v /\
            body ConPlaceArticulation [23] = Some (fst v) /\
            body ConPlaceArticulation [23] <> Some (snd v).
Proof.
  assert (H : in_chart (class_of ConPlaceArticulation) 23)
    by (unfold in_chart; cbn; lia).
  split; [exact H|].
  exact (single_code_primary ConPlaceArticulation 23 H).
Defined.

(** ** C5: a code outside the chart *)

(** C5: if the sequence has a code outside 1-25 (consonants) or 1-15
    (vowels), every routine of the class returns without printing a label,
    where the generic reduction has the outcome OutOfRangeCode; this ends
    that routine only: main still calls every routine of the class on the
    sequence and goes on to its last line.  (The routine leaves at the
    first code that fails; for 1, 6, 99 this is the return of the
    mismatch at 6.  A caller cannot tell the two returns apart.) *)
Theorem out_of_range_no_label (k : PhonemeClass) (codes : list Z)
        (H : exists c, In c codes /\ ~ in_chart k c) :
  (forall r, class_of r = k ->
             body r codes = None /\
             Spec.reduce (featureTable r) codes = Spec.OutOfRangeCode) /\
  (forall t, dispatch (selector k) codes t =
             (0, t ++ map (fun r => Call r codes) (routines_of k)
                   ++ [Printf "========END========"])).
Proof.
  assert (U : forall r, class_of r = k ->
                        exists c, In c codes /\ feature r c = None).
  { intros r <-. destruct H as [c [Hin Hc]]. exists c. split; [exact Hin|].
    apply feature_None. exact Hc. }
  assert (B : forall r, class_of r = k -> body r codes = None).
  { intros r Hr. rewrite body_feature. apply whileSub_unmapped. auto. }
  split.
  { intros r Hr. split; [auto|].
    unfold Spec.reduce. rewrite mapCodes_None by auto. reflexivity. }
  intros t. rewrite dispatch_class. do 3 f_equal.
  rewrite flat_map_concat_map, <- (app_nil_r (map _ _)).
  assert (P : forall r, In r (routines_of k) -> prints r codes = []).
  { intros r Hr. unfold prints. rewrite (B r (routines_class _ _ Hr)).
    reflexivity. }
  destruct k; cbn [routines_of map concat app] in *;
    repeat rewrite P by (cbn; tauto); reflexivity.
Qed.

Lemma out_of_range_no_label_witness :
  (exists c, In c [1; 6; 99] /\ ~ in_chart Consonant c) /\
  body ConPlaceArticulation [1; 6; 99] = None.
Proof.
  assert (H : exists c, In c [1; 6; 99] /\ ~ in_chart Consonant c).
  { exists 99. split; [cbn; tauto|]. unfold in_chart. cbn. lia. }
  split; [exact H|].
  exact (proj1 (proj1 (out_of_range_no_label Consonant [1; 6; 99] H)
                      ConPlaceArticulation eq_refl)).
Defined.

(** ** C6: the vowels 5 and 9 *)

(** C6: on the vowels 5, 9 (e, o), both "Diphthong" with sub-feature "Minor
    Diphthong", vowDiphthong prints the label "Diphthong", not the shared
    sub-feature. *)
Theorem diphthong_5_9 :
  Classify.diphthong 5 = Some ("Diphthong", "Minor Diphthong") /\
  Classify.diphthong 9 = Some ("Diphthong", "Minor Diphthong") /\
  vowDiphthong [5; 9] = Some "Diphthong" /\
  vowDiphthong [5; 9] <> Some "Minor Diphthong" /\
  prints VowDiphthong [5; 9] =
  [Printf "The common simple/complex vowel is: Diphthong"].
Proof. repeat split. vm_compute. discriminate. Qed.

(** ** C7: the calls of a class *)

(** C7: for the selector of either class and every sequence, main calls
    each routine of the class exactly once (three for the consonants, five
    for the vowels), all on the same sequence; each writes what it writes
    when run alone, label or nothing, whatever the others did, and the
    last line is reached. *)
Theorem dispatch_independent (k : PhonemeClass) (codes : list Z) (t : trace) :
  dispatch (selector k) codes t =
  (0, t ++ flat_map (fun r => Call r codes :: prints r codes) (routines_of k)
        ++ [Printf "========END========"]) /\
  calls (snd (dispatch (selector k) codes t)) =
  calls t ++ map (fun r => (r, codes)) (routines_of k) /\
  stdout (snd (dispatch (selector k) codes t)) =
  stdout t ++ flat_map (fun r => stdout (prints r codes)) (routines_of k)
           ++ ["========END========"] /\
  List.length (routines_of k) = match k with Consonant => 3 | Vowel => 5 end%nat /\
  NoDup (routines_of k).
Proof.
  split; [apply dispatch_class|].
  rewrite dispatch_class. cbn [snd].
  rewrite !calls_app, !stdout_app.
  assert (C : forall rs,
             calls (flat_map (fun r => Call r codes :: prints r codes) rs) =
             map (fun r => (r, codes)) rs).
  { induction rs as [|r rs IH]; [reflexivity|].
    cbn [flat_map map]. rewrite calls_app, IH.
    unfold prints. destruct (body r codes); reflexivity. }
  assert (S : forall rs,
             stdout (flat_map (fun r => Call r codes :: prints r codes) rs) =
             flat_map (fun r => stdout (prints r codes)) rs).
  { induction rs as [|r rs IH]; [reflexivity|].
    cbn [flat_map]. rewrite stdout_app, IH. reflexivity. }
  rewrite C, S. cbn [calls stdout flat_map app]. rewrite app_nil_r.
  repeat split.
  - destruct k; reflexivity.
  - destruct k; cbn [routines_of];
      repeat (constructor; [cbn; intuition discriminate|]); constructor.
Qed.

(** ** C8: another selector *)

(** C8: for a selector other than 0 and 1 main writes "Invalid Input" and
    returns: no routine is called, no label is written, whatever the
    sequence. *)
Theorem invalid_selector (consonantVowel : Z) (codes : list Z) (t : trace)
        (H0 : consonantVowel <> 0) (H1 : consonantVowel <> 1) :
  dispatch consonantVowel codes t = (0, t ++ [Printf "Invalid Input"]) /\
  calls (snd (dispatch consonantVowel codes t)) = calls t /\
  stdout (snd (dispatch consonantVowel codes t)) =
  stdout t ++ ["Invalid Input"].
Proof.
  assert (E : dispatch consonantVowel codes t =
              (0, t ++ [Printf "Invalid Input"])).
  { unfold dispatch.
    destruct (Z.eqb_spec consonantVowel 0); [contradiction|].
    destruct (Z.eqb_spec consonantVowel 1); [contradiction|].
    reflexivity. }
  rewrite E. cbn [snd]. rewrite calls_app, stdout_app. cbn.
  rewrite app_nil_r. auto.
Qed.

Lemma invalid_selector_witness :
  2 <> 0 /\ 2 <> 1 /\
  dispatch 2 [1; 2] [] = (0, [Printf "Invalid Input"]).
Proof.
  assert (H0 : 2 <> 0) by discriminate.
  assert (H1 : 2 <> 1) by discriminate.
  split; [exact H0|split; [exact H1|]].
  exact (proj1 (invalid_selector 2 [1; 2] [] H0 H1)).
Defined.

(** ** C9: the input array *)

(** C9, as stated, fails: nothing caps the loop.  With the count 8 and
    eight codes entered, the eighth is written to [intArray[7]], outside
    the seven cells. *)
Lemma eighth_code_out_of_bounds :
  ask zeros [8; 1; 2; 3; 4; 5; 6; 7; 8; 0] =
  Fault (StoreOutOfBounds [(7, 8)])
        [Printf "How many consonants/vowels?";
         Printf "Enter intArray[0]."; Printf "Enter intArray[1].";
         Printf "Enter intArray[2]."; Printf "Enter intArray[3].";
         Printf "Enter intArray[4]."; Printf "Enter intArray[5].";
         Printf "Enter intArray[6]."; Printf "Enter intArray[7].";
         Printf "Vowel or consonant? Enter 0 if consonant, 1 if vowel."] /\
  ~ writes_within_bounds.
Proof.
  assert (E : ask zeros [8; 1; 2; 3; 4; 5; 6; 7; 8; 0] =
              Fault (StoreOutOfBounds [(7, 8)])
                    [Printf "How many consonants/vowels?";
                     Printf "Enter intArray[0]."; Printf "Enter intArray[1].";
                     Printf "Enter intArray[2]."; Printf "Enter intArray[3].";
                     Printf "Enter intArray[4]."; Printf "Enter intArray[5].";
                     Printf "Enter intArray[6]."; Printf "Enter intArray[7].";
                     Printf "Vowel or consonant? Enter 0 if consonant, 1 if vowel."])
    by (vm_compute; reflexivity).
  split; [exact E|].
  intros H. exact (H _ _ _ _ E).
Qed.

(** C9 (amended): the loop stores one number per entry asked for, at the
    indices 0, 1, ... in order, with no cap; the numbers typed are in the
    range of [int].  For a count of at most 7, whatever is typed, every
    store is within the seven cells: the first cells hold the numbers the
    loop has read, the number that follows them is the selector.  For a
    count above 7 and eight numbers or more typed after it, whatever
    follows, the eighth number is stored at index 7, outside the array. *)
Theorem input_collection (junk : indeterminate) (num : Z) (rest : list Z)
        (Hint : ints (read num rest)) :
  (num <= 7 ->
   exists intArray consonantVowel t,
     ask junk (num :: rest) = Ok (num, intArray, consonantVowel) t /\
     List.length intArray = intArray_size /\
     firstn (List.length (firstn (Z.to_nat num) rest)) intArray =
     firstn (Z.to_nat num) rest /\
     (forall codes v rest',
         rest = codes ++ v :: rest' -> List.length codes = Z.to_nat num ->
         cells intArray num = codes /\ consonantVowel = v)) /\
  (7 < num -> (8 <= List.length rest)%nat ->
   exists v stores t,
     nth_error rest 7 = Some v /\
     ask junk (num :: rest) = Fault (StoreOutOfBounds ((7, v) :: stores)) t).
Proof.
  split.
  - intros Hnum.
    rewrite (ask_closed _ _ _ Hint), (outside_stores_none _ _ Hnum).
    assert (L : List.length (initial junk) = intArray_size)
      by (unfold initial; rewrite length_map, length_seq; reflexivity).
    assert (T : (List.length (firstn (Z.to_nat num) rest) <= intArray_size)%nat)
      by (rewrite length_firstn; unfold intArray_size; lia).
    rewrite (firstn_all2 (n := intArray_size)) by exact T.
    eexists. eexists. eexists. split; [reflexivity|]. split; [|split].
    + rewrite length_app, length_skipn, L. lia.
    + rewrite firstn_app, Nat.sub_diag, firstn_all. cbn [firstn].
      apply app_nil_r.
    + intros codes v rest' -> Hlen. unfold cells. rewrite <- Hlen.
      assert (E1 : firstn (List.length codes) (codes ++ v :: rest') = codes).
      { rewrite firstn_app, Nat.sub_diag, firstn_all. cbn [firstn].
        apply app_nil_r. }
      assert (E2 : skipn (List.length codes) (codes ++ v :: rest')
                   = v :: rest').
      { rewrite skipn_app, Nat.sub_diag, skipn_all. reflexivity. }
      rewrite E1, E2. split; [|reflexivity].
      rewrite firstn_app, Nat.sub_diag, firstn_all. cbn [firstn].
      apply app_nil_r.
  - intros Hnum Hlen.
    destruct (outside_stores_eighth num rest Hnum Hlen) as [v [stores [Hv E]]].
    exists v, stores. eexists. split; [exact Hv|].
    rewrite (ask_closed _ _ _ Hint), E. reflexivity.
Qed.

Lemma input_collection_witness :
  ints (read 2 [4; 23; 0]) /\
  (exists intArray consonantVowel t,
      ask zeros [2; 4; 23; 0] = Ok (2, intArray, consonantVowel) t /\
      List.length intArray = intArray_size /\
      firstn (List.length (firstn (Z.to_nat 2) [4; 23; 0])) intArray =
      firstn (Z.to_nat 2) [4; 23; 0] /\
      (forall codes v rest',
          [4; 23; 0] = codes ++ v :: rest' ->
          List.length codes = Z.to_nat 2 ->
          cells intArray 2 = codes /\ consonantVowel = v)).
Proof.
  assert (Hint : ints (read 2 [4; 23; 0])) by (repeat constructor).
  split; [exact Hint|].
  apply (proj1 (input_collection zeros 2 [4; 23; 0] Hint)). lia.
Defined.

(** ** C10: the empty sequence *)

(** C10: on the empty sequence every routine reaches its [printf] with its
    buffer still empty: it prints the empty string as the common label.
    With the count 0, main asks for no code and, for the selector of either
    class, writes one line with an empty label per routine of the class,
    then its last line. *)
Theorem empty_sequence_empty_label :
  (forall r, body r [] = Some "") /\
  (forall r, prints r [] = [Printf (format r)]) /\
  (forall junk k rest,
      main junk (0 :: selector k :: rest) =
      Ok 0 ([Printf "How many consonants/vowels?";
             Printf "Vowel or consonant? Enter 0 if consonant, 1 if vowel."]
              ++ flat_map (fun r => [Call r []; Printf (format r)])
                          (routines_of k)
              ++ [Printf "========END========"])).
Proof.
  repeat split.
  - intros []; reflexivity.
  - intros []; reflexivity.
  - intros junk [] rest; reflexivity.
Qed.

(** * Further properties of the routines and of main *)

(** ** Helper lemmas *)

Lemma values_feature (r : routine) (v : string * string) :
  In v (values r) ->
  exists c, in_chart (class_of r) c /\ feature r c = Some v.
Proof.
  unfold values. rewrite in_flat_map. intros [k [Hk Hv]].
  apply in_seq in Hk. exists (Z.of_nat k). split.
  - unfold in_chart. lia.
  - destruct (feature r (Z.of_nat k)) as [w|]; [|destruct Hv].
    destruct Hv as [->|[]]. reflexivity.
Qed.

Lemma states_primary (r : routine) (st : string * string) :
  In st (states r) -> In (fst st) (map fst (values r)).
Proof.
  unfold states. intros H. apply in_app_or in H. destruct H as [H|H].
  - apply in_map. exact H.
  - apply in_map_iff in H. destruct H as [v [<- Hv]]. cbn [fst].
    apply in_map. exact Hv.
Qed.

Lemma primary_states (r : routine) (x : string) :
  In x (map fst (values r)) -> In (x, "") (states r).
Proof.
  intros H. apply in_map_iff in H. destruct H as [v [<- Hv]].
  unfold states. apply in_or_app. right.
  apply in_map_iff. exists v. split; [reflexivity|exact Hv].
Qed.

(** The primary buffer always holds a primary label of the chart. *)
Lemma whileSub_primary (r : routine) (codes : list Z) :
  forall (i : nat) (st : string * string) (x : string),
    In st (states r) ->
    whileSub (feature r) (S i) codes (fst st) (snd st) = Some x ->
    In x (map fst (values r)).
Proof.
  induction codes as [|c codes IH]; intros i st x Hst H.
  - cbn in H. injection H as <-. apply states_primary. exact Hst.
  - cbn [whileSub] in H.
    destruct (feature r c) as [[p s]|] eqn:Hc; [|discriminate].
    destruct (compareSub p s (fst st) (snd st)) as [[p' s']|] eqn:Hcmp;
      [|discriminate].
    apply compareSub_sub in Hcmp as Hs'. cbn in Hs'. subst s'.
    assert (K : primary_kept r st (p, s) = true).
    { apply (forallb2_In (primary_kept r) (states r) (values r));
        [destruct r; vm_compute; reflexivity|exact Hst|].
      eapply feature_values. exact Hc. }
    unfold primary_kept in K. cbn [fst snd] in K. rewrite Hcmp in K.
    cbn [fst] in K. apply existsb_exists in K. destruct K as [y [Hy E]].
    apply strcmp0_eq in E. subst y.
    apply (IH (S i) (p', "") x); [apply primary_states; exact Hy|exact H].
Qed.

Lemma body_primary (r : routine) (c : Z) (codes : list Z) (x : string) :
  body r (c :: codes) = Some x -> In x (map fst (values r)).
Proof.
  rewrite body_feature. cbn [whileSub].
  destruct (feature r c) as [[p s]|] eqn:Hc; [|discriminate].
  apply (whileSub_primary r codes 0%nat (p, s)).
  unfold states. apply in_or_app. left. eapply feature_values. exact Hc.
Qed.

Lemma whileSub_failed (classify : Z -> option (string * string))
      (l l' : list Z) :
  forall (i : nat) (pp ps : string),
    whileSub classify i l pp ps = None ->
    whileSub classify i (l ++ l') pp ps = None.
Proof.
  induction l as [|c l IH]; intros i pp ps H; [discriminate H|].
  cbn [whileSub app] in *.
  destruct (classify c) as [[p s]|]; [|reflexivity].
  destruct i as [|i]; [apply IH; exact H|].
  destruct (compareSub p s pp ps) as [[p' s']|]; [|reflexivity].
  apply IH. exact H.
Qed.

(** ** The routines *)

(** X1: in the six routines in which no sub-feature is also a primary label
    (conVoicing, vowHeight, vowBackness, vowTenseness, vowRoundedness,
    vowDiphthong), a sequence with a first code prints the label x exactly
    when every code has an entry with the primary label x. *)
Theorem flat_resolves_iff (r : routine) (c : Z) (codes : list Z) (x : string)
        (Hr : flat r = true) :
  body r (c :: codes) = Some x <-> uniform (feature r) x (c :: codes).
Proof.
  split.
  - apply flat_resolved. exact Hr.
  - intros U. rewrite body_feature. apply whileSub_uniform_0. exact U.
Qed.

Lemma flat_resolves_iff_witness :
  flat VowDiphthong = true /\
  (body VowDiphthong [5; 10] = Some "Diphthong" <->
   uniform (feature VowDiphthong) "Diphthong" [5; 10]).
Proof.
  assert (Hr : flat VowDiphthong = true) by reflexivity.
  split; [exact Hr|].
  exact (flat_resolves_iff VowDiphthong 5 [10] "Diphthong" Hr).
Defined.

(** X2: in each of the eight routines, codes that all have the same primary
    label print that label, whatever their sub-features and however many
    they are. *)
Theorem shared_primary_resolves (r : routine) (c : Z) (codes : list Z)
        (x : string) (U : uniform (feature r) x (c :: codes)) :
  body r (c :: codes) = Some x.
Proof.
  rewrite body_feature.
  cbn [whileSub].
  destruct (U c (or_introl eq_refl)) as [s ->].
  apply whileSub_uniform.
  intros c' Hc'. apply U. right. exact Hc'.
Qed.

Lemma shared_primary_resolves_witness :
  uniform (feature ConPlaceArticulation) "Labial" [1; 4; 23] /\
  body ConPlaceArticulation [1; 4; 23] = Some "Labial".
Proof.
  assert (U : uniform (feature ConPlaceArticulation) "Labial" [1; 4; 23]).
  { intros c' H. cbn in H.
    destruct H as [<-|[<-|[<-|[]]]]; eexists; reflexivity. }
  split; [exact U|].
  exact (shared_primary_resolves ConPlaceArticulation 1 [4; 23] "Labial" U).
Defined.

(** X3: a label that is printed is a label of every code of the sequence:
    each code is in the chart of the class, and the label is its primary
    label or its sub-feature. *)
Theorem resolved_label_covers (r : routine) (c : Z) (codes : list Z)
        (x : string) (H : body r (c :: codes) = Some x) :
  forall c', In c' (c :: codes) ->
             in_chart (class_of r) c' /\
             exists v, feature r c' = Some v /\ covers x v.
Proof.
  rewrite body_feature in H.
  intros c' Hc'.
  destruct (whileSub_covers_0 _ _ _ _ H c' Hc') as [v [Hv Hx]].
  split; [eapply feature_in_chart; exact Hv|].
  exists v. split; assumption.
Qed.

Lemma resolved_label_covers_witness :
  body ConPlaceArticulation [23; 20] = Some "Velar" /\
  forall c', In c' [23; 20] ->
             in_chart (class_of ConPlaceArticulation) c' /\
             exists v, feature ConPlaceArticulation c' = Some v /\
                       covers "Velar" v.
Proof.
  assert (H : body ConPlaceArticulation [23; 20] = Some "Velar")
    by reflexivity.
  split; [exact H|].
  exact (resolved_label_covers ConPlaceArticulation 23 [20] "Velar" H).
Defined.

(** X4: a label that is printed is the primary label of a code of the
    chart; the labels that are sub-features only ("Bilabial",
    "Labiodental", "Major Diphthong", "Minor Diphthong") are never
    printed. *)
Theorem resolved_label_primary (r : routine) (c : Z) (codes : list Z)
        (x : string) (H : body r (c :: codes) = Some x) :
  (exists c0 s, in_chart (class_of r) c0 /\ feature r c0 = Some (x, s)) /\
  ~ In x sub_only.
Proof.
  apply body_primary in H.
  split.
  - apply in_map_iff in H. destruct H as [[p s] [<- Hv]].
    destruct (values_feature r (p, s) Hv) as [c0 [Hin Hc0]].
    exists c0, s. split; assumption.
  - intros Hsub.
    assert (D : forallb (fun y => negb (existsb (strcmp0 y) sub_only))
                        (map fst (values r)) = true)
      by (destruct r; vm_compute; reflexivity).
    rewrite forallb_forall in D. specialize (D x H).
    apply negb_true_iff in D.
    assert (E : existsb (strcmp0 x) sub_only = true).
    { apply existsb_exists. exists x. split; [exact Hsub|apply strcmp0_refl]. }
    congruence.
Qed.

Lemma resolved_label_primary_witness :
  body ConMannerArticulation [3; 1] = Some "Stop" /\
  (exists c0 s, in_chart (class_of ConMannerArticulation) c0 /\
                feature ConMannerArticulation c0 = Some ("Stop", s)) /\
  ~ In "Stop" sub_only.
Proof.
  assert (H : body ConMannerArticulation [3; 1] = Some "Stop")
    by reflexivity.
  split; [exact H|].
  exact (resolved_label_primary ConMannerArticulation 3 [1] "Stop" H).
Defined.

(** X5: from the third code on, the label is settled.  A sequence of two
    codes or more that prints x, extended by further codes, prints x when
    each further code has an entry with x as primary label or as
    sub-feature, and nothing otherwise; a sequence that prints nothing
    prints nothing when extended. *)
Theorem settled_after_two (r : routine) (a b : Z) (m l' : list Z) :
  body r (a :: b :: m ++ l') =
  match body r (a :: b :: m) with
  | Some x => if forallb (accepts (feature r) x) l' then Some x else None
  | None => None
  end.
Proof.
  rewrite !body_feature. cbn [whileSub].
  destruct (feature r a) as [[pa sa]|]; [|reflexivity].
  destruct (feature r b) as [[pb sb]|]; [|reflexivity].
  destruct (compareSub pb sb pa sa) as [[p' s']|] eqn:Hcmp; [|reflexivity].
  apply compareSub_sub in Hcmp. cbn in Hcmp. subst s'.
  rewrite !whileSub_settled, forallb_app.
  destruct (forallb (accepts (feature r) p') m); reflexivity.
Qed.

(** X6: a routine that returns without printing on a sequence returns
    without printing on every sequence that starts with it: no later code
    repairs an out-of-range code or a mismatch. *)
Theorem failure_is_final (r : routine) (l l' : list Z)
        (H : body r l = None) :
  body r (l ++ l') = None.
Proof.
  rewrite body_feature in *.
  apply whileSub_failed. exact H.
Qed.

Lemma failure_is_final_witness :
  body ConVoicing [1; 2] = None /\
  body ConVoicing ([1; 2] ++ [1; 1]) = None.
Proof.
  assert (H : body ConVoicing [1; 2] = None) by reflexivity.
  split; [exact H|].
  exact (failure_is_final ConVoicing [1; 2] [1; 1] H).
Defined.

(** X7: no label copied into a [char[20]] buffer overflows it: the two
    labels of every entry, and so the label printed, have fewer than 20
    characters. *)
Theorem labels_fit_buffers (r : routine) (codes : list Z) (x : string)
        (H : body r codes = Some x) :
  (String.length x < buffer_size)%nat /\
  forall c p s, feature r c = Some (p, s) ->
                (String.length p < buffer_size)%nat /\
                (String.length s < buffer_size)%nat.
Proof.
  assert (F : forall v, In v (values r) ->
                        (String.length (fst v) < buffer_size)%nat /\
                        (String.length (snd v) < buffer_size)%nat).
  { intros v Hv.
    assert (D : forallb fits (values r) = true)
      by (destruct r; vm_compute; reflexivity).
    rewrite forallb_forall in D. specialize (D v Hv).
    unfold fits in D. apply andb_true_iff in D. destruct D as [D1 D2].
    apply Nat.ltb_lt in D1, D2. split; assumption. }
  split.
  - destruct codes as [|c codes].
    + rewrite body_feature in H. cbn in H. injection H as <-.
      unfold buffer_size. cbn. lia.
    + apply body_primary in H. apply in_map_iff in H.
      destruct H as [v [<- Hv]]. apply (F v Hv).
  - intros c p s Hc. apply (F (p, s)). eapply feature_values. exact Hc.
Qed.

Lemma labels_fit_buffers_witness :
  body ConPlaceArticulation [17] = Some "Alveopalatal" /\
  (String.length "Alveopalatal" < buffer_size)%nat.
Proof.
  assert (H : body ConPlaceArticulation [17] = Some "Alveopalatal")
    by reflexivity.
  split; [exact H|].
  exact (proj1 (labels_fit_buffers ConPlaceArticulation [17]
                                   "Alveopalatal" H)).
Defined.

(** ** main *)


(** X8: a run whose count is at most 7 (zero and negative counts included)
    and that is given that many codes and a selector, all numbers in the
    range of [int], stays within defined behaviour: main asks its
    questions in order, calls the routines of the selected class on
    exactly the codes entered, and returns 0. *)
Theorem main_run (junk : indeterminate) (num : Z) (codes : list Z)
        (consonantVowel : Z) (rest : list Z)
        (Hint : ints (read num (codes ++ consonantVowel :: rest)))
        (Hlen : List.length codes = Z.to_nat num) (Hnum : num <= 7) :
  main junk (num :: codes ++ consonantVowel :: rest) =
  Ok 0 (snd (dispatch consonantVowel codes
                      (questions (List.length codes)))).
Proof.
  unfold main. rewrite (ask_room _ _ _ _ _ Hint Hnum Hlen).
  destruct (Z.leb_spec num (Z.of_nat intArray_size));
    [|unfold intArray_size in *; lia].
  unfold cells. rewrite <- Hlen.
  rewrite firstn_app, Nat.sub_diag, firstn_all. cbn [firstn].
  rewrite app_nil_r.
  unfold dispatch.
  destruct (consonantVowel =? 0); [reflexivity|].
  destruct (consonantVowel =? 1); reflexivity.
Qed.

Lemma main_run_witness :
  ints (read 2 ([4; 23] ++ 0 :: [])) /\
  List.length [4; 23] = Z.to_nat 2 /\ 2 <= 7 /\
  main zeros (2 :: [4; 23] ++ 0 :: []) =
  Ok 0 (snd (dispatch 0 [4; 23] (questions (List.length [4; 23])))).
Proof.
  assert (Hint : ints (read 2 ([4; 23] ++ 0 :: [])))
    by (repeat constructor).
  assert (Hlen : List.length [4; 23] = Z.to_nat 2) by reflexivity.
  assert (Hnum : 2 <= 7) by lia.
  split; [exact Hint|split; [exact Hlen|split; [exact Hnum|]]].
  exact (main_run zeros 2 [4; 23] 0 [] Hint Hlen Hnum).
Defined.





(** ** The buffers during a run *)

Lemma buffersSub_label (classify : Z -> option (string * string))
      (codes : list Z) :
  forall (i : nat) (pp ps : string),
    whileSub classify i codes pp ps =
    option_map fst (buffersSub classify i codes pp ps).
Proof.
  induction codes as [|c codes IH]; intros i pp ps; [reflexivity|].
  cbn [whileSub buffersSub].
  destruct (classify c) as [[p s]|]; [|reflexivity].
  destruct i as [|i]; [apply IH|].
  destruct (compareSub p s pp ps) as [[p' s']|]; [apply IH|reflexivity].
Qed.

Lemma buffersSub_sub (classify : Z -> option (string * string))
      (codes : list Z) :
  forall (i : nat) (pp ps : string) (st : string * string),
    buffersSub classify (S i) codes pp ps = Some st ->
    (codes = [] /\ st = (pp, ps)) \/ snd st = "".
Proof.
  induction codes as [|c codes IH]; intros i pp ps st H.
  - left. cbn in H. injection H as <-. auto.
  - right. cbn [buffersSub] in H.
    destruct (classify c) as [[p s]|]; [|discriminate].
    destruct (compareSub p s pp ps) as [[p' s']|] eqn:Hcmp; [|discriminate].
    apply compareSub_sub in Hcmp. cbn in Hcmp. subst s'.
    destruct (IH _ _ _ _ H) as [[_ ->]|E]; [reflexivity|exact E].
Qed.

(** X11: the arm of the comparison block that stores a common sub-feature
    (the second test, "subPlace and previousSubPlace are same") stores
    nothing in any run.  Whenever the buffers of a routine hold a
    sub-feature and the next code has one too, the primary labels are
    equal, so that the first test has matched already and the label kept
    is the primary label. *)
Theorem sub_feature_arm_never_stores (r : routine) (codes : list Z) (c : Z)
        (pp ps p s : string)
        (H : buffersSub (feature r) 0 codes "" "" = Some (pp, ps))
        (Hc : feature r c = Some (p, s))
        (Hps : ps <> "") (Hs : s <> "") :
  p = pp /\ compareSub p s pp ps = Some (pp, "") /\
  body r (codes ++ [c]) = Some pp.
Proof.
  assert (E : codes <> [] /\ In (pp, ps) (values r) /\
              exists c0, codes = [c0]).
  { destruct codes as [|c0 rest]; cbn [buffersSub] in H.
    - injection H as <- <-. congruence.
    - destruct (feature r c0) as [[p0 s0]|] eqn:Hc0; [|discriminate].
      destruct (buffersSub_sub _ _ _ _ _ _ H) as [[-> E]|E].
      + injection E as <- <-.
        repeat split; [discriminate|eapply feature_values; exact Hc0|].
        exists c0. reflexivity.
      + cbn in E. congruence. }
  destruct E as [_ [Hv [c0 ->]]].
  assert (Hp : p = pp).
  { apply (values_sub_same_primary r (p, s) (pp, ps));
      [eapply feature_values; exact Hc|exact Hv|exact Hs|exact Hps]. }
  subst p. split; [reflexivity|].
  assert (Hcmp : compareSub pp s pp ps = Some (pp, "")).
  { unfold compareSub. rewrite strcmp0_refl. reflexivity. }
  split; [exact Hcmp|].
  rewrite body_feature. cbn [app whileSub].
  cbn [buffersSub] in H.
  destruct (feature r c0) as [[p0 s0]|]; [|discriminate].
  injection H as -> ->.
  rewrite Hc, Hcmp. reflexivity.
Qed.

Lemma sub_feature_arm_never_stores_witness :
  buffersSub (feature ConPlaceArticulation) 0 [1] "" "" =
  Some ("Labial", "Bilabial") /\
  feature ConPlaceArticulation 23 = Some ("Labial", "Velar") /\
  "Bilabial" <> "" /\ "Velar" <> "" /\
  "Labial" = "Labial" /\
  compareSub "Labial" "Velar" "Labial" "Bilabial" = Some ("Labial", "") /\
  body ConPlaceArticulation ([1] ++ [23]) = Some "Labial".
Proof.
  assert (H : buffersSub (feature ConPlaceArticulation) 0 [1] "" "" =
              Some ("Labial", "Bilabial")) by reflexivity.
  assert (Hc : feature ConPlaceArticulation 23 = Some ("Labial", "Velar"))
    by reflexivity.
  assert (Hps : "Bilabial" <> "") by discriminate.
  assert (Hs : "Velar" <> "") by discriminate.
  split; [exact H|split; [exact Hc|split; [exact Hps|split; [exact Hs|]]]].
  exact (sub_feature_arm_never_stores ConPlaceArticulation [1] 23
           "Labial" "Bilabial" "Labial" "Velar" H Hc Hps Hs).
Defined.

(** X12: the order of the codes matters for the first two only: two
    sequences with the same first two codes, followed by the same further
    codes in any order, have the same outcome. *)
Theorem later_order_irrelevant (r : routine) (a b : Z) (m m' : list Z)
        (HP : Permutation m m') :
  body r (a :: b :: m) = body r (a :: b :: m').
Proof.
  rewrite !body_feature. cbn [whileSub].
  destruct (feature r a) as [[pa sa]|]; [|reflexivity].
  destruct (feature r b) as [[pb sb]|]; [|reflexivity].
  destruct (compareSub pb sb pa sa) as [[p' s']|] eqn:Hcmp; [|reflexivity].
  apply compareSub_sub in Hcmp. cbn in Hcmp. subst s'.
  rewrite !whileSub_settled.
  replace (forallb (accepts (feature r) p') m')
    with (forallb (accepts (feature r) p') m); [reflexivity|].
  induction HP as [|y k k' _ IH|y z k|k k' k'' _ IH1 _ IH2];
    cbn [forallb].
  - reflexivity.
  - rewrite IH. reflexivity.
  - rewrite !andb_assoc, (andb_comm (accepts (feature r) p' y)). reflexivity.
  - congruence.
Qed.

Lemma later_order_irrelevant_witness :
  Permutation [23; 21] [21; 23] /\
  body ConPlaceArticulation (23 :: 20 :: [23; 21]) =
  body ConPlaceArticulation (23 :: 20 :: [21; 23]).
Proof.
  assert (HP : Permutation [23; 21] [21; 23]) by apply perm_swap.
  split; [exact HP|].
  exact (later_order_irrelevant ConPlaceArticulation 23 20 _ _ HP).
Defined.
